(** * SvelteKit dev server: the development-time request pipeline

    A shallow embedding of
    - [packages/kit/src/exports/vite/dev/index.js] (function [dev] and its
      helpers [update_manifest], [debounce], [has_correct_case], the two
      connect middlewares), and
    - [packages/kit/src/exports/vite/dev/default_environment.js]
      ([asyncFunctionDeclarationPaddingLineCount], [processSourceMap]).

    JavaScript strings are modelled by Rocq's [string]; the texts whose
    characters or lengths matter here (paths, URLs, placeholders) are
    ASCII, one character per code unit.  Mutable
    closure variables of [dev] ([manifest_data], [manifest_error],
    [timeout], [restarting]) become fields of an explicit state record;
    calls into collaborators (sync, vite, the file system, the module
    runner) are either recorded in an effect log or taken from a record of
    collaborator functions. *)

From stdpp Require Import gmap strings list.
From Stdlib Require Import ZArith Lia Ascii.

Local Open Scope Z_scope.
Local Open Scope nat_scope.

(* ================================================================== *)
(** * Part I — definitions                                             *)
(* ================================================================== *)

(** ** JavaScript values and string primitives *)

Module Js.

(** An [Error] object, as far as [dev] looks at it: [message] may be
    [undefined]/[null] (hence the [?? 'Invalid routes'] in the source). *)
Record Error := mkError { message : option string; stack : string }.

(** Completion of a call: a normal return or a thrown error. *)
Inductive completion (A : Type) : Type :=
| Return (a : A)
| Throw (e : Error).
Arguments Return {A} a.
Arguments Throw {A} e.

(** [a ?? b] *)
Definition nullish {A} (a : option A) (b : A) : A :=
  match a with Some x => x | None => b end.

(** [s.startsWith(p)] *)
Definition startsWith (s p : string) : bool := String.prefix p s.

Fixpoint drop (n : nat) (s : string) : string :=
  match n, s with
  | O, _ => s
  | S n', String _ s' => drop n' s'
  | S _, EmptyString => EmptyString
  end.

Fixpoint take (n : nat) (s : string) : string :=
  match n, s with
  | O, _ => EmptyString
  | S n', String c s' => String c (take n' s')
  | S _, EmptyString => EmptyString
  end.

(** [s.slice(start, end)], negative indices counted from the end. *)
Definition slice (s : string) (start end_ : Z) : string :=
  let len := Z.of_nat (String.length s) in
  let from := if (start <? 0)%Z then Z.max (len + start) 0 else Z.min start len in
  let to := if (end_ <? 0)%Z then Z.max (len + end_) 0 else Z.min end_ len in
  take (Z.to_nat (to - from)) (drop (Z.to_nat from) s).

(** [s.slice(start)] for a length, as in [decoded.slice(assets.length)]. *)
Definition slice_from (s : string) (start : nat) : string := drop start s.

Fixpoint index_from (pat s : string) (i : nat) : option nat :=
  if String.prefix pat s then Some i
  else match s with
       | EmptyString => None
       | String _ s' => index_from pat s' (S i)
       end.

(** [s.indexOf(pat)]: first index, or -1. *)
Definition indexOf (s pat : string) : Z :=
  match index_from pat s 0 with
  | Some i => Z.of_nat i
  | None => (-1)%Z
  end.

(** [s.split(sep)] for a one-character separator. *)
Fixpoint split (sep : ascii) (s : string) : list string :=
  match s with
  | EmptyString => [EmptyString]
  | String c s' =>
      if Ascii.eqb c sep then EmptyString :: split sep s'
      else match split sep s' with
           | x :: r => String c x :: r
           | [] => [String c EmptyString]
           end
  end.

(** [s.repeat(n)] *)
Fixpoint repeat (s : string) (n : nat) : string :=
  match n with
  | O => EmptyString
  | S n' => s +:+ repeat s n'
  end.

(** [xs.includes(x)] on an array of strings. *)
Definition includes (xs : list string) (x : string) : bool :=
  existsb (String.eqb x) xs.

(** [xs.find(p)] *)
Fixpoint find {A} (p : A → bool) (xs : list A) : option A :=
  match xs with
  | [] => None
  | x :: r => if p x then Some x else find p r
  end.

(** [a || b] on optional strings: [undefined] and [''] are falsy. *)
Definition or_else (a b : option string) : option string :=
  match a with
  | Some EmptyString | None => b
  | Some _ => a
  end.

(** A template-literal hole [`${x}`] for an optional string. *)
Definition interpolate (a : option string) : string :=
  match a with Some s => s | None => "undefined" end.

(** [GetSubstitution] of ECMA-262 for a match without capture groups:
    in the replacement text [$$] stands for a dollar sign, [$&] for the
    matched text, [$`] for the text before the match and [$'] for the
    text after it; every other character (including a dollar sign
    followed by anything else) stands for itself. *)
Fixpoint get_substitution (matched before after template : string) : string :=
  match template with
  | EmptyString => EmptyString
  | String c t =>
      if Ascii.eqb c "$" then
        match t with
        | String d r =>
            if Ascii.eqb d "$" then String "$" (get_substitution matched before after r)
            else if Ascii.eqb d "`" then before +:+ get_substitution matched before after r
            else if Ascii.eqb d "&" then matched +:+ get_substitution matched before after r
            else if Ascii.eqb d "'" then after +:+ get_substitution matched before after r
            else String c (get_substitution matched before after t)
        | EmptyString => String c EmptyString
        end
      else String c (get_substitution matched before after t)
  end.

(** [s.replace(/pat/g, repl)] for a regular expression that matches the
    literal, non-empty text [pat]: matches are found left to right and do
    not overlap; [skip] counts the characters of the current match still
    to be passed over, [before] is the part of the subject already
    scanned. *)
Fixpoint replace_go (pat repl : string) (skip : nat) (before s : string) : string :=
  match s with
  | EmptyString => EmptyString
  | String c s' =>
      match skip with
      | S k => replace_go pat repl k (before +:+ String c EmptyString) s'
      | O =>
          if String.prefix pat s then
            get_substitution pat before (drop (String.length pat) s) repl
            +:+ replace_go pat repl (String.length pat - 1)
                  (before +:+ String c EmptyString) s'
          else String c (replace_go pat repl 0 (before +:+ String c EmptyString) s')
      end
  end.

Definition replace_all (s pat repl : string) : string :=
  replace_go pat repl 0 EmptyString s.

Definition newline : ascii := "010"%char.

End Js.

(** ** node:path (POSIX flavour)

    [dev] calls [path.dirname], [path.basename] and [path.sep] of Node's
    standard library.  The two functions are transcribed from Node's
    [path.posix] implementation: both scan the path from its last
    character towards the first. *)

Module Path.

Definition sep : string := "/".

Definition is_slash (c : ascii) : bool := Ascii.eqb c "/".

(** The loop of [dirname]: [rev_tail] holds the characters at indices
    [i], [i-1], ..., [1]; the result is the value of [end] when it has
    been set. *)
Fixpoint dirname_scan (rev_tail : string) (i : nat) (matchedSlash : bool) : option nat :=
  match rev_tail with
  | EmptyString => None
  | String c r =>
      if is_slash c then
        if matchedSlash then dirname_scan r (i - 1) true else Some i
      else dirname_scan r (i - 1) false
  end.

Definition dirname (path : string) : string :=
  match path with
  | EmptyString => "."
  | String c0 tail =>
      let hasRoot := is_slash c0 in
      match dirname_scan (String.rev tail) (String.length path - 1) true with
      | None => if hasRoot then "/" else "."
      | Some end_ =>
          if hasRoot && (end_ =? 1) then "//"
          else Js.slice path 0 (Z.of_nat end_)
      end
  end.

(** The loop of [basename] (no suffix argument): [rev_path] holds the
    characters at indices [i], ..., [0]; the result is [(start, end)]. *)
Fixpoint basename_scan (rev_path : string) (i : nat) (matchedSlash : bool)
    (end_ : option nat) : nat * option nat :=
  match rev_path with
  | EmptyString => (0, end_)
  | String c r =>
      if is_slash c then
        if matchedSlash then basename_scan r (i - 1) true end_ else (i + 1, end_)
      else
        match end_ with
        | None => basename_scan r (i - 1) false (Some (i + 1))
        | Some _ => basename_scan r (i - 1) matchedSlash end_
        end
  end.

Definition basename (path : string) : string :=
  match basename_scan (String.rev path) (String.length path - 1) true None with
  | (_, None) => EmptyString
  | (start, Some end_) => Js.slice path (Z.of_nat start) (Z.of_nat end_)
  end.

End Path.

(** ** default_environment.js *)

Module Env.

(** The text [new AsyncFunction('a', 'b', body).toString()] is produced by
    the JavaScript engine; it is a parameter [render] of the definitions
    below ([render params body]). *)
Definition wrapper_body : string := "/*code*/".

Definition asyncFunctionDeclarationPaddingLineCount
    (render : list string → string → string) : Z :=
  let body := wrapper_body in
  let source := render ["a"; "b"] body in
  (Z.of_nat (length (Js.split Js.newline
                       (Js.slice source 0 (Js.indexOf source body)))) - 1)%Z.

(** What V8 prints for an AsyncFunction built from two parameters. *)
Definition v8_render (params : list string) (body : string) : string :=
  "async function anonymous(" +:+ String.concat "," params +:+
  String Js.newline (") {" +:+ String Js.newline (body +:+
  String Js.newline "}")).

(** A source map: the [mappings] string and the remaining properties,
    which [Object.assign({}, map, { mappings })] copies unchanged. *)
Record SourceMap (R : Type) := mkSourceMap { mappings : string; rest : R }.
Arguments mkSourceMap {R} _ _.
Arguments mappings {R} _.
Arguments rest {R} _.

Definition processSourceMap {R} (padding : Z) (map : SourceMap R) : SourceMap R :=
  {| mappings := Js.repeat ";" (Z.to_nat padding) +:+ mappings map;
     rest := rest map |}.

End Env.

(** ** dev/index.js: configuration, state and effects *)

Module Dev.

(** The parts of [svelte_config.kit] and of the Vite configuration that
    [dev] reads. *)
Record Config := mkConfig {
  files_assets : string;
  files_routes : string;
  files_params : string;
  files_hooks_client : string;
  files_hooks_server : string;
  files_appTemplate : string;
  files_errorTemplate : string;
  files_serviceWorker : string;
  paths_base : string;
  paths_assets : string;
  server_https : bool;
  server_fs_strict : bool;
  server_fs_allow : list string
}.

(** Constants that [dev] imports from modules outside this directory
    ([constants.js], [module_ids.js], [utils/url.js]); they are taken as
    parameters. [SCHEME] stands for [SCHEME.test].  With them comes
    [invalidateModule], the method of Vite's module graph that
    [update_manifest] calls: which modules of a graph it marks as
    invalidated besides the one it is given (Vite follows the importers)
    is for Vite to say, and left open here. *)
Record Constants := mkConstants {
  SVELTE_KIT_ASSETS : string;
  sveltekit_environment_context : string;
  SCHEME : string → bool;
  invalidateModule : gmap string bool → string → gmap string bool
}.

(** A route of the manifest: [pattern] stands for the truthiness of
    [route.pattern.exec(s)]. *)
Record RouteData := mkRoute {
  route_id : string;
  pattern : string → bool;
  environment : option string
}.

Record ManifestData := mkManifest { routes : list RouteData }.

Inductive ws_message : Type :=
| FullReload
| ErrorOverlay (msg stack : string).

(** Calls into collaborators that [dev] makes for their effect. *)
Inductive effect : Type :=
| SyncCreate
| SyncUpdate (manifest : option ManifestData) (file : string)
| SyncServer
| WsSend (m : ws_message)
| ConsoleError (text : option string)
| ConsoleLog (text : string)
| ViteRestart.

(** The only callback ever handed to [debounce]. *)
Inductive task : Type := UpdateManifest.

(** A pending [setTimeout]: the callback built by [debounce] around
    [to_run], due at [deadline]. *)
Record timer := mkTimer { timer_id : nat; deadline : nat; to_run : task }.

(** The closure variables of [dev] together with the host state they
    interact with: the clock (milliseconds), the timer queue, the module
    graphs of [vite.environments] (module id to "invalidated" flag) and
    the log of effects, each stamped with the time it happened. *)
Record State := mkState {
  manifest_data : option ManifestData;
  manifest_error : option Js.Error;
  timeout : option nat;
  restarting : bool;
  environments : gmap string (gmap string bool);
  now : nat;
  timers : list timer;
  next_timer_id : nat;
  log : list (nat * effect)
}.

Definition set_manifest_data (v : option ManifestData) (st : State) : State :=
  mkState v (manifest_error st) (timeout st) (restarting st) (environments st)
          (now st) (timers st) (next_timer_id st) (log st).
Definition set_manifest_error (v : option Js.Error) (st : State) : State :=
  mkState (manifest_data st) v (timeout st) (restarting st) (environments st)
          (now st) (timers st) (next_timer_id st) (log st).
Definition set_timeout (v : option nat) (st : State) : State :=
  mkState (manifest_data st) (manifest_error st) v (restarting st) (environments st)
          (now st) (timers st) (next_timer_id st) (log st).
Definition set_restarting (v : bool) (st : State) : State :=
  mkState (manifest_data st) (manifest_error st) (timeout st) v (environments st)
          (now st) (timers st) (next_timer_id st) (log st).
Definition set_environments (v : gmap string (gmap string bool)) (st : State) : State :=
  mkState (manifest_data st) (manifest_error st) (timeout st) (restarting st) v
          (now st) (timers st) (next_timer_id st) (log st).
Definition set_now (v : nat) (st : State) : State :=
  mkState (manifest_data st) (manifest_error st) (timeout st) (restarting st)
          (environments st) v (timers st) (next_timer_id st) (log st).
Definition set_timers (v : list timer) (n : nat) (st : State) : State :=
  mkState (manifest_data st) (manifest_error st) (timeout st) (restarting st)
          (environments st) (now st) v n (log st).
Definition perform (e : effect) (st : State) : State :=
  mkState (manifest_data st) (manifest_error st) (timeout st) (restarting st)
          (environments st) (now st) (timers st) (next_timer_id st)
          (log st ++ [(now st, e)]).

(** *** update_manifest (lines 57-90) *)

(** [moduleGraph.getModuleById(id)] followed, when the module is there,
    by [moduleGraph.invalidateModule(module)]. *)
Definition invalidate_context (K : Constants) (graph : gmap string bool) : gmap string bool :=
  match graph !! sveltekit_environment_context K with
  | Some _ => invalidateModule K graph (sveltekit_environment_context K)
  | None => graph
  end.

(** [created] is the completion of [sync.create(svelte_config)]. *)
Definition update_manifest (K : Constants) (created : Js.completion ManifestData)
    (st : State) : State :=
  let st := perform SyncCreate st in
  match created with
  | Js.Return md =>
      let st := set_manifest_data (Some md) st in
      let st := set_environments (invalidate_context K <$> environments st) st in
      match manifest_error st with
      | Some _ => perform (WsSend FullReload) (set_manifest_error None st)
      | None => st
      end
  | Js.Throw error =>
      let st := set_manifest_error (Some error) st in
      let st := perform (ConsoleError (Js.message error)) st in
      perform (WsSend (ErrorOverlay (Js.nullish (Js.message error) "Invalid routes") "")) st
  end.

(** *** Collaborators

    What [dev] obtains from the outside while it runs: the completion of
    [sync.create] (which reads the route tree as it is at the time of the
    call), the file system, URL parsing, the module runner, ...
    [getRequest] is awaited inside the [try] of the router: it returns
    the request or throws (the [Request] constructor refuses some URLs,
    methods and bodies). *)
Record Response := mkResponse {
  status : nat;
  headers : list (string * string);
  body : string
}.

(** The fields of a connect request that the middlewares read. *)
Record IncomingMessage := mkReq {
  url : string;
  originalUrl : string;
  header_authority : option string;
  header_host : option string
}.

Record World (Request : Type) := mkWorld {
  sync_create : nat → Js.completion ManifestData;
  (* [decodeURI(new URL(base + url).pathname)] *)
  decode_pathname : string → string → Js.completion string;
  (* [posixify(path.resolve(p))] *)
  resolve_path : string → string;
  existsSync : string → bool;
  statSync_isDirectory : string → Js.completion bool;
  readdirSync : string → Js.completion (list string);
  resolve_entry : string → option string;
  to_fs : string → string;
  load_error_page : string;
  encodeURI : string → string;
  getRequest : string → IncomingMessage → Js.completion Request;
  dispatchFetch : string → Request → Js.completion Response;
  ssrFixStacktrace : Js.Error → Js.Error
}.
Arguments sync_create {Request} _ _.
Arguments decode_pathname {Request} _ _ _.
Arguments resolve_path {Request} _ _.
Arguments existsSync {Request} _ _.
Arguments statSync_isDirectory {Request} _ _.
Arguments readdirSync {Request} _ _.
Arguments resolve_entry {Request} _ _.
Arguments to_fs {Request} _ _.
Arguments load_error_page {Request} _.
Arguments encodeURI {Request} _ _.
Arguments getRequest {Request} _ _ _.
Arguments dispatchFetch {Request} _ _ _.
Arguments ssrFixStacktrace {Request} _ _.

(** *** Timers: setTimeout, clearTimeout and the passage of time *)

Definition clearTimeout (id : nat) (st : State) : State :=
  set_timers (filter (λ tm, timer_id tm ≠ id) (timers st)) (next_timer_id st) st.

Definition setTimeout (tk : task) (delay : nat) (st : State) : nat * State :=
  let id := next_timer_id st in
  (id, set_timers (timers st ++ [mkTimer id (now st + delay) tk]) (S id) st).

(** [debounce] (lines 120-126). *)
Definition debounce (tk : task) (st : State) : State :=
  let st := match timeout st with
            | Some id => clearTimeout id st
            | None => st
            end in
  let '(id, st) := setTimeout tk 100 st in
  set_timeout (Some id) st.

(** The callback [() => { timeout = null; to_run(); }] of timer [tm],
    run when the timer expires (a cleared timer never runs). *)
Definition fire {Request} (W : World Request) (K : Constants) (st : State) (tm : timer) : State :=
  if bool_decide (timer_id tm ∈ timer_id <$> timers st) then
    let st := set_timers (filter (λ x, timer_id x ≠ timer_id tm) (timers st))
                         (next_timer_id st) st in
    let st := set_now (Nat.max (now st) (deadline tm)) st in
    let st := set_timeout None st in
    match to_run tm with
    | UpdateManifest => update_manifest K (sync_create W (now st)) st
    end
  else st.

Fixpoint insert_by_deadline (tm : timer) (l : list timer) : list timer :=
  match l with
  | [] => [tm]
  | x :: r =>
      if deadline tm <=? deadline x then tm :: l
      else x :: insert_by_deadline tm r
  end.

Definition sort_by_deadline (l : list timer) : list timer :=
  foldr insert_by_deadline [] l.

(** Let the clock reach [t]: every timer due by then expires, earliest
    first.  That a timer expires exactly at its deadline, and before
    what else happens at that instant, is a convention of this model:
    Node promises only that it does not expire earlier. *)
Definition advance {Request} (W : World Request) (K : Constants) (t : nat) (st : State) : State :=
  let due := filter (λ tm, deadline tm ≤ t) (timers st) in
  let st := foldl (fire W K) st (sort_by_deadline due) in
  set_now (Nat.max (now st) t) st.

(** *** File watchers (lines 104-175) *)

Inductive watch_kind : Type := Add | Unlink | Change | AddDir | UnlinkDir.

(** The filter of [watch] (lines 106-112). *)
Definition watched (cfg : Config) (file : string) : bool :=
  Js.startsWith file (files_routes cfg +:+ Path.sep)
  || Js.startsWith file (files_params cfg +:+ Path.sep)
  || Js.startsWith file (files_hooks_client cfg).

(** [watch('add', ...)] and [watch('unlink', ...)]. *)
Definition on_add_unlink (cfg : Config) (file : string) (st : State) : State :=
  if watched cfg file then debounce UpdateManifest st else st.

(** [watch('change', ...)] (lines 135-140). *)
Definition on_change_tracked (cfg : Config) (file : string) (st : State) : State :=
  if watched cfg file then
    if bool_decide (is_Some (timeout st)) || restarting st then st
    else perform (SyncUpdate (manifest_data st) file) st
  else st.

(** Lines 147-153. *)
Definition on_change_template (cfg : Config) (file : string) (st : State) : State :=
  if negb (String.eqb (files_appTemplate cfg) "index.html") then
    if String.eqb file (files_appTemplate cfg) && negb (restarting st)
    then perform (WsSend FullReload) st
    else st
  else st.

(** The ['all'] listener (lines 155-164). *)
Definition on_all (cfg : Config) (file : string) (st : State) : State :=
  if String.eqb file (files_appTemplate cfg)
     || String.eqb file (files_errorTemplate cfg)
     || Js.startsWith file (files_serviceWorker cfg)
     || Js.startsWith file (files_hooks_server cfg)
  then perform SyncServer st
  else st.

(** Lines 169-175. *)
Definition on_change_config (file : string) (st : State) : State :=
  if String.eqb (Path.basename file) "svelte.config.js" then
    let st := perform (ConsoleLog
      ("svelte config changed, restarting vite dev-server. changed file: " +:+ file)) st in
    let st := set_restarting true st in
    perform ViteRestart st
  else st.

(** One event of the watcher: the listeners of the event's own name run
    in the order in which [dev] registered them, then the ['all']
    listener. *)
Definition emit (cfg : Config) (k : watch_kind) (file : string) (st : State) : State :=
  let st :=
    match k with
    | Add | Unlink => on_add_unlink cfg file st
    | Change =>
        on_change_config file (on_change_template cfg file (on_change_tracked cfg file st))
    | AddDir | UnlinkDir => st
    end in
  on_all cfg file st.

Record watch_event := mkEvent { at_time : nat; kind : watch_kind; file : string }.

(** A run of the process over a chronological list of watcher events.
    An event delivered at the very instant a timer is due finds the
    timer expired, by the convention of [advance]. *)
Definition run_events {Request} (W : World Request) (K : Constants) (cfg : Config)
    (events : list watch_event) (st : State) : State :=
  foldl (λ st ev, emit cfg (kind ev) (file ev) (advance W K (at_time ev) st)) st events.

(** *** The patched global fetch (lines 38-47)

    [info] is a string or an object (a [URL] or a [Request]); the result
    lists the calls made to the original [fetch], which is the only way
    this function reaches the network. *)
Inductive fetch_info (O : Type) : Type :=
| InfoString (s : string)
| InfoObject (o : O).
Arguments InfoString {O} s.
Arguments InfoObject {O} o.

Definition relative_url_message (info : string) : string :=
  "Cannot use relative URL (" +:+ info +:+
  ") with global fetch — use `event.fetch` instead: https://kit.svelte.dev/docs/web-standards#fetch-apis".

Definition patched_fetch {O I R} (K : Constants)
    (fetch : fetch_info O → I → Js.completion R)
    (info : fetch_info O) (init : I)
    : list (fetch_info O * I) * Js.completion R :=
  match info with
  | InfoString s =>
      if negb (SCHEME K s)
      then ([], Js.Throw (Js.mkError (Some (relative_url_message s)) ""))
      else ([(info, init)], fetch info init)
  | InfoObject _ => ([(info, init)], fetch info init)
  end.

(** *** has_correct_case (lines 388-398)

    The recursion of the source is bounded here by [fuel]; [None] means
    that the bound was reached. *)
Fixpoint has_correct_case_upto (readdir : string → Js.completion (list string))
    (fuel : nat) (file assets : string) : option (Js.completion bool) :=
  match fuel with
  | O => None
  | S fuel' =>
      if String.eqb file assets then Some (Js.Return true)
      else
        let parent := Path.dirname file in
        match readdir parent with
        | Js.Throw e => Some (Js.Throw e)
        | Js.Return names =>
            if Js.includes names (Path.basename file)
            then has_correct_case_upto readdir fuel' parent assets
            else Some (Js.Return false)
        end
  end.

(** What the engine throws when the recursion does not end. *)
Definition stack_overflow : Js.Error :=
  Js.mkError (Some "Maximum call stack size exceeded") "".

(** [dirname] reaches one of its fixed points within [length file + 2]
    steps, so a call that needs more than [length file + 3] frames never
    returns (see [has_correct_case_adequate]). *)
Definition has_correct_case (readdir : string → Js.completion (list string))
    (file assets : string) : Js.completion bool :=
  match has_correct_case_upto readdir (String.length file + 3) file assets with
  | Some r => r
  | None => Js.Throw stack_overflow
  end.

(** *** The asset middleware (lines 214-241) *)

Definition request_base (cfg : Config) (req : IncomingMessage) : string :=
  (if server_https cfg then "https" else "http") +:+ "://" +:+
  Js.interpolate (Js.or_else (header_authority req) (header_host req)).

(** [fix_stack_trace(coalesce_to_error(e))] *)
Definition fix_stack_trace {Request} (W : World Request) (e : Js.Error) : string :=
  Js.stack (ssrFixStacktrace W e).

(** Line 177. *)
Definition assets_prefix (K : Constants) (cfg : Config) : string :=
  if String.eqb (paths_assets cfg) "" then paths_base cfg else SVELTE_KIT_ASSETS K.

Inductive front_outcome : Type :=
| AssetServer (url : string)   (* req.url = url; asset_server(req, res) *)
| Next                         (* next() *)
| FrontError (body : string).  (* res.statusCode = 500; res.end(body) *)

Definition serve_assets {Request} (W : World Request) (K : Constants) (cfg : Config)
    (req : IncomingMessage) : front_outcome :=
  let base := request_base cfg req in
  match decode_pathname W base (url req) with
  | Js.Throw e => FrontError (fix_stack_trace W e)
  | Js.Return decoded =>
      let assets := assets_prefix K cfg in
      if Js.startsWith decoded assets then
        let pathname := Js.slice_from decoded (String.length assets) in
        let file := files_assets cfg +:+ pathname in
        if existsSync W file then
          match statSync_isDirectory W file with
          | Js.Throw e => FrontError (fix_stack_trace W e)
          | Js.Return true => Next
          | Js.Return false =>
              match has_correct_case (readdirSync W) file (files_assets cfg) with
              | Js.Throw e => FrontError (fix_stack_trace W e)
              | Js.Return true => AssetServer (encodeURI W pathname)
              | Js.Return false => Next
              end
          end
        else Next
      else Next
  end.

(** *** The request router (lines 265-362)

    [serve_static_middleware.handle] and [not_found] are recorded in the
    outcome rather than run; [ServeStaticOr url r] is the call with the
    fallback [() => setResponse(res, r)]. *)
Inductive outcome : Type :=
| ServeStatic (url : string)
| NotFound (base : string)
| WriteEnd (status : nat) (headers : list (string * string)) (body : string)
| SetResponse (r : Response)
| ServeStaticOr (url : string) (fallback : Response)
| Status500 (body : string).

Definition status_placeholder : string := "%sveltekit.status%".
Definition message_placeholder : string := "%sveltekit.error.message%".

(** [error_template] (lines 319-323); [status] arrives as [String(status)]. *)
Definition error_template (error_page status message : string) : string :=
  Js.replace_all (Js.replace_all error_page status_placeholder status)
                 message_placeholder message.

Definition type_error (what : string) : Js.Error :=
  Js.mkError (Some ("Cannot read properties of undefined (reading '" +:+ what +:+ "')")) "".

(** [fs.existsSync(file) && !fs.statSync(file).isDirectory()] *)
Definition is_file {Request} (W : World Request) (file : string) : Js.completion bool :=
  if existsSync W file then
    match statSync_isDirectory W file with
    | Js.Return d => Js.Return (negb d)
    | Js.Throw e => Js.Throw e
    end
  else Js.Return false.

(** The route lookup of lines 338-340, on the text [url] that the source
    passes to [pattern.exec]. *)
Definition find_route (manifest : ManifestData) (url : string) : option RouteData :=
  Js.find (λ route, pattern route url) (routes manifest).

(** Lines 342-345: [route?.environment ?? 'ssr']. *)
Definition environment_name (route : option RouteData) : string :=
  Js.nullish (route ≫= environment) "ssr".

(** The result of one request: the calls made to [dispatchFetch]
    (environment name and request) and what was done with [res]. *)
Definition handle {Request} (W : World Request) (cfg : Config) (st : State)
    (req : IncomingMessage) : list (string * Request) * outcome :=
  let original_url := url req in
  let req := mkReq (originalUrl req) (originalUrl req)
                   (header_authority req) (header_host req) in
  let base := request_base cfg req in
  match decode_pathname W base (url req) with
  | Js.Throw e => ([], Status500 (fix_stack_trace W e))
  | Js.Return decoded =>
      let file := resolve_path W
                    (Js.slice_from decoded (String.length (paths_base cfg) + 1)) in
      match is_file W file with
      | Js.Throw e => ([], Status500 (fix_stack_trace W e))
      | Js.Return is_file =>
          let allowed := negb (server_fs_strict cfg)
                         || existsb (λ dir, Js.startsWith file dir) (server_fs_allow cfg) in
          if is_file && allowed then ([], ServeStatic original_url)
          else if negb (Js.startsWith decoded (paths_base cfg)) then
            ([], NotFound (paths_base cfg))
          else if String.eqb decoded (paths_base cfg +:+ "/service-worker.js") then
            match resolve_entry W (files_serviceWorker cfg) with
            | Some resolved =>
                ([], WriteEnd 200 [("content-type", "application/javascript")]
                       ("import '" +:+ to_fs W resolved +:+ "';"))
            | None => ([], WriteEnd 404 [] "not found")
            end
          else
            match getRequest W base req with
            | Js.Throw e => ([], Status500 (fix_stack_trace W e))
            | Js.Return request =>
                match manifest_error st with
                | Some error =>
                    let error_page := load_error_page W in
                    ([], WriteEnd 500 [("Content-Type", "text/html; charset=utf-8")]
                           (error_template error_page "500"
                              (Js.nullish (Js.message error) "Invalid routes")))
                | None =>
                    match manifest_data st with
                    | None => ([], Status500 (fix_stack_trace W (type_error "routes")))
                    | Some manifest =>
                        let route := find_route manifest (url req) in
                        match environments st !! environment_name route with
                        | None =>
                            ([], Status500 (fix_stack_trace W (type_error "dispatchFetch")))
                        | Some _ =>
                            match dispatchFetch W (environment_name route) request with
                            | Js.Throw e =>
                                ([(environment_name route, request)],
                                 Status500 (fix_stack_trace W e))
                            | Js.Return rendered =>
                                ([(environment_name route, request)],
                                 if status rendered =? 404
                                 then ServeStaticOr (url req) rendered
                                 else SetResponse rendered)
                            end
                        end
                    end
                end
            end
      end
  end.

(** *** remove_static_middlewares (lines 369-377)

    An entry of connect's [server.stack], as far as the loop reads it:
    the route it is mounted on and the name of its handler function.
    The loop runs [i] from [stack.length - 1] down to 1; [splice(i, 1)]
    is the deletion of the element at index [i]. *)
Record Middleware := mkMiddleware { mw_route : string; handle_name : string }.

Definition static_middlewares : list string :=
  ["viteServeStaticMiddleware"; "viteServePublicMiddleware"].

Fixpoint remove_static_loop (i : nat) (stack : list Middleware)
    : Js.completion (list Middleware) :=
  match i with
  | O => Js.Return stack
  | S i' =>
      match stack !! i with
      | None => Js.Throw (type_error "handle")
      | Some entry =>
          remove_static_loop i'
            (if Js.includes static_middlewares (handle_name entry)
             then delete i stack
             else stack)
      end
  end.

Definition remove_static_middlewares (stack : list Middleware)
    : Js.completion (list Middleware) :=
  remove_static_loop (length stack - 1) stack.

End Dev.

(** The value of [SCHEME] in kit's [utils/url.js] is the regular expression
    [/^[a-z][a-z\d+\-.]+:/i]; [scheme_test] decides it and serves as the
    [SCHEME] of the examples. *)
Definition is_alpha (c : ascii) : bool :=
  let n := nat_of_ascii c in
  ((65 <=? n) && (n <=? 90)) || ((97 <=? n) && (n <=? 122)).

Definition is_scheme_char (c : ascii) : bool :=
  let n := nat_of_ascii c in
  is_alpha c || ((48 <=? n) && (n <=? 57))
  || Ascii.eqb c "+" || Ascii.eqb c "-" || Ascii.eqb c ".".

Fixpoint scheme_rest (seen : bool) (s : string) : bool :=
  match s with
  | EmptyString => false
  | String c r =>
      if is_scheme_char c then scheme_rest true r
      else Ascii.eqb c ":" && seen
  end.

Definition scheme_test (s : string) : bool :=
  match s with
  | EmptyString => false
  | String c r => is_alpha c && scheme_rest false r
  end.

(** The constants used in the examples. *)
Definition kit_constants : Dev.Constants :=
  Dev.mkConstants "/_svelte_kit_assets" "__sveltekit/environment_context" scheme_test
    (λ graph id, <[id := true]> graph).

(** ** An example project

    A project in [/proj] on a case-insensitive file system, with the
    default layout, one static asset [static/Logo.png], a page [/about]
    served by an "edge" environment and the index page. *)

Definition to_lower (c : ascii) : ascii :=
let n := nat_of_ascii c in
if (65 <=? n) && (n <=? 90) then ascii_of_nat (n + 32) else c.

Fixpoint lower (s : string) : string :=
match s with
| EmptyString => EmptyString
| String c r => String (to_lower c) (lower r)
end.

(** The path of a request target: the text before the first [?] or [#]
    (what [new URL(...).pathname] is for a plain ASCII path). *)
Fixpoint path_of (target : string) : string :=
match target with
| EmptyString => EmptyString
| String c r =>
    if Ascii.eqb c "?" || Ascii.eqb c "#" then EmptyString else String c (path_of r)
end.

Definition example_config : Dev.Config :=
Dev.mkConfig "/proj/static" "/proj/src/routes" "/proj/src/params"
  "/proj/src/hooks.client" "/proj/src/hooks.server" "/proj/src/app.html"
  "/proj/src/error.html" "/proj/src/service-worker" "" "" false true ["/proj"].

(** What is on disk, in lower case: [existsSync] and [statSync] ignore
    case, [readdirSync] lists the names as they were written
    ([Logo.png]). *)
Definition example_directories : list string := ["/"; "/proj"; "/proj/static"].
Definition example_files : list string := ["/proj/static/logo.png"; "/proj/svelte.config.js"].

Definition enoent : Js.Error := Js.mkError (Some "ENOENT: no such file or directory") "".

Definition example_readdir (dir : string) : Js.completion (list string) :=
if String.eqb (lower dir) "/proj/static" then Js.Return ["Logo.png"]
else if String.eqb (lower dir) "/proj" then Js.Return ["src"; "static"; "svelte.config.js"]
else if String.eqb dir "/" then Js.Return ["proj"]
else Js.Throw enoent.

Definition about_pattern (s : string) : bool := String.eqb s "/about" || String.eqb s "/about/".
Definition index_pattern (s : string) : bool := String.eqb s "/".

Definition example_manifest : Dev.ManifestData :=
Dev.mkManifest [Dev.mkRoute "/about" about_pattern (Some "edge");
                Dev.mkRoute "/" index_pattern None].

Definition example_error_page : string :=
"<h1>%sveltekit.status%</h1><p>%sveltekit.error.message%</p>".

(** Requests are represented by their absolute URL. *)
Definition example_world : Dev.World string :=
Dev.mkWorld string
  (λ _, Js.Return example_manifest)
  (λ _ target, Js.Return (path_of target))
  (λ p, "/proj/" +:+ p)
  (λ f, Js.includes (example_directories ++ example_files) (lower f))
  (λ f, Js.Return (Js.includes example_directories (lower f)))
  example_readdir
  (λ _, None)
  (λ p, "/@fs" +:+ p)
  example_error_page
  (λ p, p)
  (λ base req, Js.Return (base +:+ Dev.url req))
  (λ env _, Js.Return (Dev.mkResponse 200 [] ("rendered by " +:+ env)))
  (λ e, e).

(** The same project when [getRequest] refuses the request (as the
    [Request] constructor does for a forbidden method). *)
Definition refused : Js.Error :=
Js.mkError (Some "'TRACE' HTTP method is unsupported.")
           "TypeError: 'TRACE' HTTP method is unsupported.".

Definition refusing_world : Dev.World string :=
Dev.mkWorld string
  (Dev.sync_create example_world)
  (Dev.decode_pathname example_world)
  (Dev.resolve_path example_world)
  (Dev.existsSync example_world)
  (Dev.statSync_isDirectory example_world)
  (Dev.readdirSync example_world)
  (Dev.resolve_entry example_world)
  (Dev.to_fs example_world)
  (Dev.load_error_page example_world)
  (Dev.encodeURI example_world)
  (λ _ _, Js.Throw refused)
  (Dev.dispatchFetch example_world)
  (Dev.ssrFixStacktrace example_world).

Definition example_graphs : gmap string (gmap string bool) :=
{[ "ssr" := {[ "__sveltekit/environment_context" := false ]};
   "edge" := {[ "__sveltekit/environment_context" := false ]};
   "client" := ∅ ]}.

(** The state after [dev] has run its first [update_manifest()]. *)
Definition started : Dev.State :=
Dev.update_manifest kit_constants (Dev.sync_create example_world 0)
  (Dev.mkState None None None false example_graphs 0 [] 0 []).

(** A request for [target] sent to the dev server. *)
Definition get (target : string) : Dev.IncomingMessage :=
Dev.mkReq target target None (Some "localhost:5173").

(** An original [fetch] that answers every call. *)
Definition example_fetch (_ : Dev.fetch_info unit) (_ : unit) : Js.completion nat :=
  Js.Return 200.

(** The state of the example after a rebuild has failed. *)
Definition failed : Dev.State :=
Dev.update_manifest kit_constants
  (Js.Throw (Js.mkError (Some "Duplicate route files: /about") "")) started.

(** The state after [svelte.config.js] has changed. *)
Definition restart_requested : Dev.State :=
Dev.emit example_config Dev.Change "/proj/svelte.config.js" started.

Definition route_added : Dev.watch_event :=
Dev.mkEvent 50 Dev.Add "/proj/src/routes/blog/+page.svelte".

Definition page_file : string := "/proj/src/routes/about/+page.svelte".

(** A directory is replaced: three events within a quarter of a second. *)
Definition burst_first : Dev.watch_event :=
Dev.mkEvent 10 Dev.Unlink "/proj/src/routes/old/+page.svelte".

Definition burst_rest : list Dev.watch_event :=
[Dev.mkEvent 60 Dev.Unlink "/proj/src/routes/old/+page.js";
 Dev.mkEvent 150 Dev.Add "/proj/src/routes/new/+page.svelte"].

(* ================================================================== *)
(** * Part II — properties                                             *)
(* ================================================================== *)

(** ** Strings *)

Lemma str_app_cons (c : ascii) (s t : string) : String c s +:+ t = String c (s +:+ t).
Proof. reflexivity. Qed.

Lemma str_app_nil_l (s : string) : "" +:+ s = s.
Proof. reflexivity. Qed.

Lemma str_app_nil_r (s : string) : s +:+ "" = s.
Proof. induction s as [|c s IH]; [reflexivity|]. by rewrite str_app_cons, IH. Qed.

Lemma str_app_assoc (s t u : string) : (s +:+ t) +:+ u = s +:+ (t +:+ u).
Proof. induction s as [|c s IH]; [reflexivity|]. by rewrite !str_app_cons, IH. Qed.

Lemma str_length_app (s t : string) :
  String.length (s +:+ t) = String.length s + String.length t.
Proof. induction s as [|c s IH]; [reflexivity|]. rewrite str_app_cons. simpl. by rewrite IH. Qed.

Lemma str_prefix_app (p s : string) : String.prefix p (p +:+ s) = true.
Proof.
  induction p as [|c p IH]; [by destruct s|].
  rewrite str_app_cons. simpl. destruct (ascii_dec c c); [exact IH|done].
Qed.

Lemma str_prefix_inv (p s : string) : String.prefix p s = true → ∃ r, s = p +:+ r.
Proof.
  revert s. induction p as [|c p IH]; intros s H.
  - by exists s.
  - destruct s as [|d s]; [done|]. simpl in H.
    destruct (ascii_dec c d) as [->|]; [|done].
    destruct (IH s H) as [r ->]. by exists r.
Qed.

Lemma str_take_app (s t : string) : Js.take (String.length s) (s +:+ t) = s.
Proof. induction s as [|c s IH]; [by destruct t|]. rewrite str_app_cons. simpl. by rewrite IH. Qed.

Lemma str_drop_app (s t : string) : Js.drop (String.length s) (s +:+ t) = t.
Proof. induction s as [|c s IH]; [reflexivity|]. rewrite str_app_cons. simpl. exact IH. Qed.

Lemma length_repeat_semicolon (n : nat) : String.length (Js.repeat ";" n) = n.
Proof. induction n as [|n IH]; [reflexivity|]. simpl. rewrite str_length_app, IH. reflexivity. Qed.

(** [s] contains [sub]. *)
Definition contains (s sub : string) : Prop := ∃ a b, s = a +:+ sub +:+ b.

(** ** The patched global fetch *)

Section PatchedFetch.
Context {O I R : Type}.
Variable K : Dev.Constants.
Variable fetch : Dev.fetch_info O → I → Js.completion R.

(** The argument is a string that does not begin with a URL scheme. *)
Definition relative_url (info : Dev.fetch_info O) : Prop :=
  ∃ s, info = Dev.InfoString s ∧ Dev.SCHEME K s = false.

Lemma relative_url_message_names (s : string) :
  contains (Dev.relative_url_message s) s
  ∧ contains (Dev.relative_url_message s) "event.fetch".
Proof.
  split.
  - eexists _, _. unfold Dev.relative_url_message. reflexivity.
  - exists ("Cannot use relative URL (" +:+ s +:+ ") with global fetch — use `"),
           "` instead: https://kit.svelte.dev/docs/web-standards#fetch-apis".
    unfold Dev.relative_url_message. rewrite !str_app_assoc. reflexivity.
Qed.

(** C10. A string argument without a URL scheme makes the patched fetch
    throw an Error whose message names the URL and points to
    [event.fetch], and the original fetch is not called; every other call
    (an object, or a string with a scheme) is forwarded once, with the
    same arguments, to the original fetch, whose completion is returned. *)
Theorem patched_fetch_guards_relative_urls (info : Dev.fetch_info O) (init : I) :
  (relative_url info →
     ∃ s msg, info = Dev.InfoString s
       ∧ Dev.patched_fetch K fetch info init = ([], Js.Throw (Js.mkError (Some msg) ""))
       ∧ contains msg s ∧ contains msg "event.fetch")
  ∧ (¬ relative_url info →
     Dev.patched_fetch K fetch info init = ([(info, init)], fetch info init)).
Proof.
  split.
  - intros (s & -> & Hs). exists s, (Dev.relative_url_message s).
    split; [reflexivity|]. split.
    + unfold Dev.patched_fetch. rewrite Hs. reflexivity.
    + apply relative_url_message_names.
  - intros Hn. destruct info as [s|o]; [|reflexivity].
    unfold Dev.patched_fetch. destruct (Dev.SCHEME K s) eqn:Hs; [reflexivity|].
    exfalso. apply Hn. by exists s.
Qed.

End PatchedFetch.

Lemma patched_fetch_witness :
  (relative_url kit_constants (Dev.InfoString (O:=unit) "/api/items")
   ∧ ∃ s msg, Dev.InfoString (O:=unit) "/api/items" = Dev.InfoString s
       ∧ Dev.patched_fetch kit_constants example_fetch (Dev.InfoString "/api/items") ()
         = ([], Js.Throw (Js.mkError (Some msg) ""))
       ∧ contains msg s ∧ contains msg "event.fetch")
  ∧ (¬ relative_url kit_constants (Dev.InfoString (O:=unit) "https://svelte.dev/")
     ∧ Dev.patched_fetch kit_constants example_fetch (Dev.InfoString "https://svelte.dev/") ()
       = ([(Dev.InfoString "https://svelte.dev/", ())], Js.Return 200)).
Proof.
  assert (Hrel : relative_url kit_constants (Dev.InfoString (O:=unit) "/api/items")).
  { exists "/api/items". split; reflexivity. }
  assert (Habs : ¬ relative_url kit_constants (Dev.InfoString (O:=unit) "https://svelte.dev/")).
  { intros (s & Hs & Hscheme). injection Hs as <-. vm_compute in Hscheme. discriminate. }
  split.
  - split; [exact Hrel|].
    exact (proj1 (patched_fetch_guards_relative_urls kit_constants example_fetch _ ()) Hrel).
  - split; [exact Habs|].
    exact (proj2 (patched_fetch_guards_relative_urls kit_constants example_fetch _ ()) Habs).
Defined.

(** ** default_environment.js: the padding of source maps *)

(** Number of line breaks in a text, that is, of lines that end in it. *)
Fixpoint newlines (s : string) : nat :=
match s with
| EmptyString => 0
| String c r => (if Ascii.eqb c Js.newline then 1 else 0) + newlines r
end.

(** [pre] is what precedes the first occurrence of [sub] in [s]. *)
Definition first_occurrence (sub s pre : string) : Prop :=
(∃ post, s = pre +:+ sub +:+ post)
∧ ∀ pre' post', s = pre' +:+ sub +:+ post' → String.length pre ≤ String.length pre'.

Lemma split_length (s : string) : length (Js.split Js.newline s) = S (newlines s).
Proof.
induction s as [|c s IH]; [reflexivity|]. simpl.
destruct (Ascii.eqb c Js.newline); simpl.
- by rewrite IH.
- destruct (Js.split Js.newline s); simpl in *; [discriminate|exact IH].
Qed.

Lemma index_from_unfold (pat s : string) (i : nat) :
Js.index_from pat s i =
  if String.prefix pat s then Some i
  else match s with
       | EmptyString => None
       | String _ s' => Js.index_from pat s' (S i)
       end.
Proof. destruct s; reflexivity. Qed.

Lemma index_from_first (pat pre s : string) (i : nat) :
first_occurrence pat s pre → Js.index_from pat s i = Some (i + String.length pre).
Proof.
revert s i. induction pre as [|c pre IH]; intros s i [[post ->] Hmin].
- rewrite index_from_unfold, str_app_nil_l, str_prefix_app. simpl. f_equal. lia.
- rewrite index_from_unfold, str_app_cons.
  destruct (String.prefix pat (String c (pre +:+ pat +:+ post))) eqn:Hp.
  + apply str_prefix_inv in Hp as [r Hr].
    specialize (Hmin "" r). rewrite str_app_nil_l, <- Hr, str_app_cons in Hmin.
    specialize (Hmin eq_refl). simpl in Hmin. lia.
  + rewrite (IH (pre +:+ pat +:+ post) (S i)); [simpl; f_equal; lia|].
    split; [by exists post|]. intros pre' post' Heq.
    specialize (Hmin (String c pre') post'). rewrite !str_app_cons, Heq in Hmin.
    specialize (Hmin eq_refl). simpl in Hmin. lia.
Qed.

Lemma str_length_take (n : nat) (s : string) : n ≤ String.length s → String.length (Js.take n s) = n.
Proof.
revert s. induction n as [|n IH]; intros [|c s] H; simpl in *; try lia.
rewrite IH; lia.
Qed.

Lemma slice_prefix (s : string) (k : nat) :
k ≤ String.length s → Js.slice s 0 (Z.of_nat k) = Js.take k s.
Proof.
intros Hk. unfold Js.slice.
replace (0 <? 0)%Z with false by reflexivity.
replace (Z.of_nat k <? 0)%Z with false by (symmetry; apply Z.ltb_ge; lia).
rewrite !Z.min_l by lia. simpl Z.to_nat. simpl Js.drop.
by rewrite Z.sub_0_r, Nat2Z.id.
Qed.

(** C9. Whatever text the engine prints for the AsyncFunction wrapper, if
    [pre] is the part of that text before the body, the padding count is
    the number of line breaks in [pre] (the lines that precede the body),
    and [processSourceMap] returns the map with its other properties
    unchanged and its mappings prefixed by exactly that many semicolons. *)
Theorem processSourceMap_pads_wrapper_lines
  (render : list string → string → string) (pre : string)
  (Hpre : first_occurrence Env.wrapper_body (render ["a"; "b"] Env.wrapper_body) pre) :
Env.asyncFunctionDeclarationPaddingLineCount render = Z.of_nat (newlines pre)
∧ ∀ (R : Type) (map : Env.SourceMap R),
    let padded := Env.processSourceMap (Env.asyncFunctionDeclarationPaddingLineCount render) map in
    Env.mappings padded = Js.repeat ";" (newlines pre) +:+ Env.mappings map
    ∧ String.length (Js.repeat ";" (newlines pre)) = newlines pre
    ∧ Env.rest padded = Env.rest map.
Proof.
assert (Hcount : Env.asyncFunctionDeclarationPaddingLineCount render = Z.of_nat (newlines pre)).
{ unfold Env.asyncFunctionDeclarationPaddingLineCount, Js.indexOf.
  rewrite (index_from_first _ pre _ 0 Hpre). simpl "+".
  destruct Hpre as [[post Hsrc] _]. rewrite Hsrc.
  rewrite slice_prefix by (rewrite str_length_app; lia).
  rewrite str_take_app, split_length. lia. }
split; [exact Hcount|]. intros R map padded. subst padded.
unfold Env.processSourceMap. rewrite Hcount, Nat2Z.id. simpl.
split; [reflexivity|]. split; [apply length_repeat_semicolon|reflexivity].
Qed.

Lemma v8_first_occurrence :
first_occurrence Env.wrapper_body (Env.v8_render ["a"; "b"] Env.wrapper_body)
  ("async function anonymous(a,b" +:+ String Js.newline (") {" +:+ String Js.newline "")).
Proof.
split; [exists (String Js.newline "}"); reflexivity|].
intros pre' post' Heq.
destruct (decide (String.length pre' < 33)) as [Hlt|]; [|simpl; lia].
exfalso.
do 33 (destruct pre' as [|? pre']; [vm_compute in Heq; discriminate|]; simpl in Hlt);
  lia.
Qed.

Lemma processSourceMap_witness :
first_occurrence Env.wrapper_body (Env.v8_render ["a"; "b"] Env.wrapper_body)
  ("async function anonymous(a,b" +:+ String Js.newline (") {" +:+ String Js.newline ""))
∧ Env.asyncFunctionDeclarationPaddingLineCount Env.v8_render = 2%Z
∧ Env.mappings (Env.processSourceMap
     (Env.asyncFunctionDeclarationPaddingLineCount Env.v8_render)
     (Env.mkSourceMap "AAAA;CAAC" 3)) = ";;AAAA;CAAC".
Proof.
split; [exact v8_first_occurrence|].
destruct (processSourceMap_pads_wrapper_lines Env.v8_render _ v8_first_occurrence)
  as [Hcount Hmap].
split; [exact Hcount|].
exact (proj1 (Hmap nat (Env.mkSourceMap "AAAA;CAAC" 3))).
Defined.

(** ** update_manifest: failure leaves the published manifest in place *)

Section UpdateManifest.
Variable K : Dev.Constants.

Lemma update_manifest_throw (e : Js.Error) (st : Dev.State) :
Dev.manifest_data (Dev.update_manifest K (Js.Throw e) st) = Dev.manifest_data st
∧ Dev.manifest_error (Dev.update_manifest K (Js.Throw e) st) = Some e.
Proof. split; reflexivity. Qed.

Lemma update_manifest_return (md : Dev.ManifestData) (st : Dev.State) :
Dev.manifest_data (Dev.update_manifest K (Js.Return md) st) = Some md
∧ Dev.manifest_error (Dev.update_manifest K (Js.Return md) st) = None.
Proof.
destruct st as [d [e|] t r envs n ts nid l]; split; reflexivity.
Qed.

(** Rebuilds whose [sync.create] throws, one after the other. *)
Definition failed_rebuilds (errs : list Js.Error) (st : Dev.State) : Dev.State :=
foldl (λ s e, Dev.update_manifest K (Js.Throw e) s) st errs.

Lemma failed_rebuilds_keep (errs : list Js.Error) (st : Dev.State) :
Dev.manifest_data (failed_rebuilds errs st) = Dev.manifest_data st
∧ Dev.manifest_error (failed_rebuilds errs st)
  = last (Dev.manifest_error st :: (Some <$> errs)) ≫= id.
Proof.
revert st. induction errs as [|e errs IH]; intros st.
- split; [reflexivity|]. simpl. by destruct (Dev.manifest_error st).
- destruct (IH (Dev.update_manifest K (Js.Throw e) st)) as [Hd He].
  split; [exact Hd|].
  change (failed_rebuilds (e :: errs) st)
    with (failed_rebuilds errs (Dev.update_manifest K (Js.Throw e) st)).
  rewrite He. reflexivity.
Qed.

(** C2. When [sync.create] throws, [update_manifest] leaves [manifest_data]
    as it was and sets [manifest_error] to the thrown error; this stays so
    through any further failing rebuilds (the error being the latest one);
    the next rebuild in which [sync.create] returns replaces
    [manifest_data] by the new manifest and resets [manifest_error] to
    null. *)
Theorem update_manifest_failure_atomic
  (st : Dev.State) (err : Js.Error) (errs : list Js.Error) (md : Dev.ManifestData) :
let failed := Dev.update_manifest K (Js.Throw err) st in
let still_failed := failed_rebuilds errs failed in
let rebuilt := Dev.update_manifest K (Js.Return md) still_failed in
Dev.manifest_data failed = Dev.manifest_data st
∧ Dev.manifest_error failed = Some err
∧ Dev.manifest_data still_failed = Dev.manifest_data st
∧ Dev.manifest_error still_failed = last (err :: errs)
∧ Dev.manifest_data rebuilt = Some md
∧ Dev.manifest_error rebuilt = None.
Proof.
intros failed still_failed rebuilt.
destruct (failed_rebuilds_keep errs failed) as [Hd He].
repeat split.
- exact Hd.
- subst still_failed. rewrite He. subst failed. simpl Dev.manifest_error.
  change (Some err :: (Some <$> errs)) with (Some <$> err :: errs).
  rewrite fmap_last. by destruct (last (err :: errs)).
- apply update_manifest_return.
- apply update_manifest_return.
Qed.

End UpdateManifest.

(** ** The change tracker *)

(** Work on the manifest: an incremental update or a rebuild. *)
Definition manifest_work (e : Dev.effect) : Prop :=
match e with
| Dev.SyncUpdate _ _ | Dev.SyncCreate => True
| _ => False
end.

(** Everything but the log and the restart flag. *)
Definition same_core (st st' : Dev.State) : Prop :=
Dev.manifest_data st' = Dev.manifest_data st
∧ Dev.manifest_error st' = Dev.manifest_error st
∧ Dev.timeout st' = Dev.timeout st
∧ Dev.timers st' = Dev.timers st
∧ Dev.next_timer_id st' = Dev.next_timer_id st
∧ Dev.now st' = Dev.now st
∧ Dev.environments st' = Dev.environments st.

(** A step that does no work on the manifest and touches no timer. *)
Definition quiet (st st' : Dev.State) : Prop :=
same_core st st'
∧ ∃ extra, Dev.log st' = Dev.log st ++ extra
           ∧ Forall (λ entry, ¬ manifest_work entry.2) extra.

(** The files for which a listener other than the tracker's acts. *)
Definition special_file (cfg : Dev.Config) (file : string) : bool :=
String.eqb file (Dev.files_appTemplate cfg)
|| String.eqb file (Dev.files_errorTemplate cfg)
|| Js.startsWith file (Dev.files_serviceWorker cfg)
|| Js.startsWith file (Dev.files_hooks_server cfg)
|| String.eqb (Path.basename file) "svelte.config.js".

Lemma same_core_refl (st : Dev.State) : same_core st st.
Proof. by repeat split. Qed.

Lemma quiet_refl (st : Dev.State) : quiet st st.
Proof.
split; [apply same_core_refl|]. exists []. by rewrite app_nil_r.
Qed.

Lemma quiet_trans (a b c : Dev.State) : quiet a b → quiet b c → quiet a c.
Proof.
intros [Hab (x & Hx & Fx)] [Hbc (y & Hy & Fy)]. split.
- unfold same_core in *.
  destruct Hab as (?&?&?&?&?&?&?), Hbc as (?&?&?&?&?&?&?).
  repeat split; congruence.
- exists (x ++ y). split; [by rewrite Hy, Hx, app_assoc|]. by apply Forall_app.
Qed.

Lemma quiet_perform (e : Dev.effect) (st : Dev.State) :
¬ manifest_work e → quiet st (Dev.perform e st).
Proof.
intros He. split; [by repeat split|].
exists [(Dev.now st, e)]. split; [reflexivity|]. by constructor.
Qed.

Lemma quiet_set_restarting (b : bool) (st : Dev.State) : quiet st (Dev.set_restarting b st).
Proof. split; [by repeat split|]. exists []. by rewrite app_nil_r. Qed.

Lemma on_all_quiet (cfg : Dev.Config) (file : string) (st : Dev.State) :
quiet st (Dev.on_all cfg file st).
Proof.
unfold Dev.on_all. case_match; [|apply quiet_refl].
apply quiet_perform. simpl. tauto.
Qed.

Lemma on_change_template_quiet (cfg : Dev.Config) (file : string) (st : Dev.State) :
quiet st (Dev.on_change_template cfg file st).
Proof.
unfold Dev.on_change_template. repeat case_match; try apply quiet_refl.
apply quiet_perform. simpl. tauto.
Qed.

Lemma on_change_config_quiet (file : string) (st : Dev.State) :
quiet st (Dev.on_change_config file st).
Proof.
unfold Dev.on_change_config. case_match; [|apply quiet_refl].
eapply quiet_trans; [|apply quiet_perform; simpl; tauto].
eapply quiet_trans; [|apply quiet_set_restarting].
apply quiet_perform. simpl. tauto.
Qed.

Lemma emit_change_after_tracker (cfg : Dev.Config) (file : string) (st : Dev.State) :
quiet (Dev.on_change_tracked cfg file st) (Dev.emit cfg Dev.Change file st).
Proof.
unfold Dev.emit.
eapply quiet_trans; [apply on_change_template_quiet|].
eapply quiet_trans; [apply on_change_config_quiet|].
apply on_all_quiet.
Qed.

Lemma emit_change_ordinary (cfg : Dev.Config) (file : string) (st : Dev.State) :
special_file cfg file = false →
Dev.emit cfg Dev.Change file st = Dev.on_change_tracked cfg file st.
Proof.
unfold special_file. intros H.
apply orb_false_iff in H as [H Hcfg]. apply orb_false_iff in H as [H Hhooks].
apply orb_false_iff in H as [H Hsw]. apply orb_false_iff in H as [Happ Herr].
unfold Dev.emit, Dev.on_all, Dev.on_change_config, Dev.on_change_template.
rewrite Hcfg, Happ, Herr, Hsw, Hhooks. simpl. by destruct (negb _).
Qed.

(** C7. A [change] event on a file under the routes or params directory or
    on the client-hooks entry: (1) with a debounced rebuild pending or with
    the restart flag set, no incremental update and no rebuild happens, no
    timer and no manifest state is touched, and for a file that no other
    listener cares about the state is unchanged altogether; (2) otherwise
    exactly one [sync.update], for the current manifest and that file, is
    performed, and no rebuild. *)
Theorem change_event_incremental_update
  (cfg : Dev.Config) (file : string) (st : Dev.State)
  (Hwatched : Dev.watched cfg file = true) :
let st' := Dev.emit cfg Dev.Change file st in
(is_Some (Dev.timeout st) ∨ Dev.restarting st = true →
   quiet st st' ∧ (special_file cfg file = false → st' = st))
∧ (Dev.timeout st = None ∧ Dev.restarting st = false →
   same_core st st'
   ∧ (∃ others,
        Dev.log st' = Dev.log st
                      ++ (Dev.now st, Dev.SyncUpdate (Dev.manifest_data st) file) :: others
        ∧ Forall (λ entry, ¬ manifest_work entry.2) others)
   ∧ (special_file cfg file = false →
        st' = Dev.perform (Dev.SyncUpdate (Dev.manifest_data st) file) st)).
Proof.
intros st'. split.
- intros Hskip.
  assert (Htr : Dev.on_change_tracked cfg file st = st).
  { unfold Dev.on_change_tracked. rewrite Hwatched.
    destruct Hskip as [Hpending| ->].
    - by rewrite (bool_decide_eq_true_2 _ Hpending).
    - by rewrite orb_true_r. }
  split.
  + rewrite <- Htr at 1. apply emit_change_after_tracker.
  + intros Hord. subst st'. by rewrite emit_change_ordinary.
- intros [Hidle Hrun].
  assert (Htr : Dev.on_change_tracked cfg file st
                = Dev.perform (Dev.SyncUpdate (Dev.manifest_data st) file) st).
  { unfold Dev.on_change_tracked. rewrite Hwatched, Hrun, Hidle.
    rewrite bool_decide_eq_false_2; [reflexivity|]. by intros [? ?]. }
  destruct (emit_change_after_tracker cfg file st) as [Hcore (others & Hlog & Hothers)].
  rewrite Htr in Hcore, Hlog. fold st' in Hcore, Hlog.
  split; [exact Hcore|]. split.
  + exists others. split; [|exact Hothers].
    rewrite Hlog. simpl. by rewrite <- app_assoc.
  + intros Hord. subst st'. by rewrite emit_change_ordinary.
Qed.

Lemma change_event_witness :
Dev.watched example_config page_file = true
∧ Dev.emit example_config Dev.Change page_file started
  = Dev.perform (Dev.SyncUpdate (Dev.manifest_data started) page_file) started
∧ Dev.emit example_config Dev.Change page_file restart_requested = restart_requested
∧ Dev.emit example_config Dev.Change page_file (Dev.debounce Dev.UpdateManifest started)
  = Dev.debounce Dev.UpdateManifest started.
Proof.
split; [reflexivity|]. split; [|split].
- destruct (change_event_incremental_update example_config page_file started eq_refl)
    as [_ Hrun].
  destruct (Hrun (conj eq_refl eq_refl)) as (_ & _ & Heq). exact (Heq eq_refl).
- destruct (change_event_incremental_update example_config page_file restart_requested eq_refl)
    as [Hskip _].
  destruct (Hskip (or_intror eq_refl)) as [_ Heq]. exact (Heq eq_refl).
- destruct (change_event_incremental_update example_config page_file
              (Dev.debounce Dev.UpdateManifest started) eq_refl) as [Hskip _].
  destruct (Hskip (or_introl (ex_intro _ 0 eq_refl))) as [_ Heq]. exact (Heq eq_refl).
Defined.

(** ** The debounce timer *)

Definition rebuild_time (entry : nat * Dev.effect) : option nat :=
match entry.2 with
| Dev.SyncCreate => Some entry.1
| _ => None
end.

(** The times at which [update_manifest] ran, oldest first. *)
Definition rebuild_times (l : list (nat * Dev.effect)) : list nat := omap rebuild_time l.

(** An [add] or [unlink] event for a file that passes the filter of [watch]. *)
Definition tracked_add_unlink (cfg : Dev.Config) (ev : Dev.watch_event) : Prop :=
(Dev.kind ev = Dev.Add ∨ Dev.kind ev = Dev.Unlink) ∧ Dev.watched cfg (Dev.file ev) = true.

(** Each event comes less than 100 ms after the one before it, the first
    of them after an event at time [t]. *)
Fixpoint within_window (t : nat) (events : list Dev.watch_event) : Prop :=
match events with
| [] => True
| ev :: rest =>
    t ≤ Dev.at_time ev ∧ Dev.at_time ev < t + 100 ∧ within_window (Dev.at_time ev) rest
end.

(** The timer is pending: it was armed at time [t], it is the only one in
    the queue, and the rebuilds so far are those of [base]. *)
Definition armed (t : nat) (base : list nat) (st : Dev.State) : Prop :=
Dev.now st = t
∧ rebuild_times (Dev.log st) = base
∧ ∃ id, Dev.timeout st = Some id
        ∧ Dev.timers st = [Dev.mkTimer id (t + 100) Dev.UpdateManifest].

Lemma quiet_rebuild_times (st st' : Dev.State) :
quiet st st' → rebuild_times (Dev.log st') = rebuild_times (Dev.log st).
Proof.
intros [_ (extra & -> & Hextra)]. unfold rebuild_times. rewrite omap_app.
assert (Hnil : omap rebuild_time extra = []).
{ induction Hextra as [|[t e] extra He _ IH]; [reflexivity|].
  simpl. unfold rebuild_time at 1. simpl in *. destruct e; simpl; try exact IH.
  by destruct He. }
by rewrite Hnil, app_nil_r.
Qed.

Section Debounce.
Context {Request : Type}.
Variable W : Dev.World Request.
Variable K : Dev.Constants.
Variable cfg : Dev.Config.

Lemma advance_no_timer (t : nat) (st : Dev.State) :
Dev.timers st = [] → Dev.advance W K t st = Dev.set_now (Nat.max (Dev.now st) t) st.
Proof. intros H. unfold Dev.advance. rewrite H. reflexivity. Qed.

Lemma advance_before_deadline (t : nat) (tm : Dev.timer) (st : Dev.State) :
Dev.timers st = [tm] → t < Dev.deadline tm →
Dev.advance W K t st = Dev.set_now (Nat.max (Dev.now st) t) st.
Proof.
intros H Hlt. unfold Dev.advance. rewrite H.
rewrite filter_cons_False by lia. reflexivity.
Qed.

Lemma debounce_arms (st : Dev.State) :
(Dev.timeout st = None ∧ Dev.timers st = []
 ∨ ∃ id d tk, Dev.timeout st = Some id ∧ Dev.timers st = [Dev.mkTimer id d tk]) →
let st' := Dev.debounce Dev.UpdateManifest st in
Dev.timeout st' = Some (Dev.next_timer_id st)
∧ Dev.timers st' = [Dev.mkTimer (Dev.next_timer_id st) (Dev.now st + 100) Dev.UpdateManifest]
∧ Dev.now st' = Dev.now st
∧ Dev.log st' = Dev.log st.
Proof.
intros [[Hto Htm]|(id & d & tk & Hto & Htm)]; unfold Dev.debounce; rewrite Hto.
- simpl. rewrite Htm. by repeat split.
- simpl. rewrite Htm. rewrite filter_cons_False by (simpl; tauto). by repeat split.
Qed.

Lemma emit_add_unlink (ev : Dev.watch_event) (st : Dev.State) :
tracked_add_unlink cfg ev →
quiet (Dev.debounce Dev.UpdateManifest st) (Dev.emit cfg (Dev.kind ev) (Dev.file ev) st).
Proof.
intros [Hk Hw]. unfold Dev.emit, Dev.on_add_unlink. rewrite Hw.
destruct Hk as [-> | ->]; apply on_all_quiet.
Qed.

Lemma event_arms (t0 : nat) (ev : Dev.watch_event) (st : Dev.State) :
(Dev.timeout st = None ∧ Dev.timers st = []
 ∨ ∃ id, Dev.timeout st = Some id
         ∧ Dev.timers st = [Dev.mkTimer id (t0 + 100) Dev.UpdateManifest]
         ∧ Dev.at_time ev < t0 + 100) →
Dev.now st ≤ Dev.at_time ev →
tracked_add_unlink cfg ev →
armed (Dev.at_time ev) (rebuild_times (Dev.log st))
      (Dev.emit cfg (Dev.kind ev) (Dev.file ev) (Dev.advance W K (Dev.at_time ev) st)).
Proof.
intros Hst Hnow Hev.
set (st1 := Dev.advance W K (Dev.at_time ev) st).
assert (H1 : st1 = Dev.set_now (Dev.at_time ev) st).
{ subst st1. destruct Hst as [[_ Htm]|(id & _ & Htm & Hlt)].
  - rewrite advance_no_timer by done. f_equal. lia.
  - rewrite (advance_before_deadline _ _ _ Htm) by (simpl; lia). f_equal. lia. }
assert (Hshape : Dev.timeout st1 = None ∧ Dev.timers st1 = []
   ∨ ∃ id d tk, Dev.timeout st1 = Some id ∧ Dev.timers st1 = [Dev.mkTimer id d tk]).
{ rewrite H1. destruct Hst as [?|(id & ? & ? & _)]; [by left|right; eauto]. }
destruct (debounce_arms st1 Hshape) as (Hto & Htm & Hn & Hlog).
destruct (emit_add_unlink ev st1 Hev) as [Hcore Hextra].
pose proof (quiet_rebuild_times _ _ (conj Hcore Hextra)) as Hrb.
destruct Hcore as (_ & _ & Hto' & Htm' & _ & Hn' & _).
split; [|split].
- rewrite Hn', Hn, H1. reflexivity.
- rewrite Hrb. unfold rebuild_times. rewrite Hlog, H1. reflexivity.
- exists (Dev.next_timer_id st1). split; [congruence|].
  rewrite Htm', Htm. rewrite H1. reflexivity.
Qed.

Lemma run_events_armed (events : list Dev.watch_event) (t0 : nat) (base : list nat)
  (st : Dev.State) :
armed t0 base st →
within_window t0 events →
Forall (tracked_add_unlink cfg) events →
armed (foldl (λ _ ev, Dev.at_time ev) t0 events) base (Dev.run_events W K cfg events st).
Proof.
revert t0 st. induction events as [|ev events IH]; intros t0 st Harmed Hwin Hall.
- exact Harmed.
- destruct Hwin as (Hle & Hlt & Hwin). inversion Hall as [|? ? Hev Hall']; subst.
  simpl. apply IH; [|exact Hwin|exact Hall'].
  destruct Harmed as (Hnow & Hbase & id & Hto & Htm).
  rewrite <- Hbase. apply (event_arms t0); [|lia|exact Hev].
  right. exists id. by repeat split.
Qed.

Lemma armed_fires (t T : nat) (base : list nat) (st : Dev.State) :
armed t base st → t + 100 ≤ T →
let st' := Dev.advance W K T st in
rebuild_times (Dev.log st') = base ++ [t + 100]
∧ Dev.timers st' = [] ∧ Dev.timeout st' = None.
Proof.
intros (Hnow & Hbase & id & Hto & Htm) HT. unfold Dev.advance. rewrite Htm.
rewrite filter_cons_True by (simpl; lia). rewrite filter_nil. simpl foldl.
unfold Dev.fire. rewrite Htm. simpl fmap.
rewrite bool_decide_eq_true_2 by (simpl; apply list_elem_of_here).
rewrite filter_cons_False by (simpl; tauto). rewrite filter_nil. simpl Dev.to_run.
cbv iota.
set (st1 := Dev.set_timeout None _).
assert (Hlog1 : Dev.log st1 = Dev.log st) by reflexivity.
assert (Hnow1 : Dev.now st1 = t + 100) by (subst st1; simpl; lia).
assert (Htm1 : Dev.timers st1 = []) by reflexivity.
assert (Hto1 : Dev.timeout st1 = None) by reflexivity.
clearbody st1.
assert (Hupd : ∀ c, let s := Dev.update_manifest K c st1 in
   rebuild_times (Dev.log s) = base ++ [t + 100]
   ∧ Dev.timers s = [] ∧ Dev.timeout s = None).
{ intros c. destruct st1 as [d e to r envs n ts nid l]. simpl in *. subst.
  destruct c as [md|err]; [destruct e|]; simpl; unfold rebuild_times;
    rewrite ?omap_app; simpl; rewrite ?app_nil_r; by repeat split. }
apply Hupd.
Qed.

End Debounce.

Lemma last_cons_default {A} (e d : A) (r : list A) : List.last (e :: r) d = List.last r e.
Proof.
revert e d. induction r as [|x r IH]; intros e d; [reflexivity|].
change (List.last (e :: x :: r) d) with (List.last (x :: r) d).
by rewrite (IH x d), (IH x e).
Qed.

Lemma last_time_foldl (first : Dev.watch_event) (rest : list Dev.watch_event) :
foldl (λ _ ev, Dev.at_time ev) (Dev.at_time first) rest = Dev.at_time (List.last rest first).
Proof.
revert first. induction rest as [|e r IH]; intros first; [reflexivity|].
simpl foldl. by rewrite IH, last_cons_default.
Qed.

Lemma within_window_prefix (t : nat) (a b : list Dev.watch_event) :
within_window t (a ++ b) → within_window t a.
Proof.
revert t. induction a as [|ev a IH]; intros t H; [exact I|].
destruct H as (? & ? & H). repeat split; [done..|]. by apply IH.
Qed.

Section Coalescing.
Context {Request : Type}.
Variable W : Dev.World Request.
Variable K : Dev.Constants.
Variable cfg : Dev.Config.

(** C3. Start with no timer pending and let a burst [first :: rest] of
    [add]/[unlink] events on watched files arrive, each less than 100 ms
    after the one before.  After every event of the burst the queue holds
    exactly one timer, due 100 ms after that event (the earlier one was
    cancelled), and no rebuild has run; once the clock passes 100 ms after
    the last event, [update_manifest] has run exactly once, at that time,
    and no timer is left. *)
Theorem debounce_coalesces_burst
  (first : Dev.watch_event) (rest : list Dev.watch_event) (st : Dev.State) (T : nat)
  (Hidle : Dev.timeout st = None ∧ Dev.timers st = [])
  (Hnow : Dev.now st ≤ Dev.at_time first)
  (Htracked : Forall (tracked_add_unlink cfg) (first :: rest))
  (Hburst : within_window (Dev.at_time first) rest)
  (HT : Dev.at_time (List.last rest first) + 100 ≤ T) :
(∀ done ev todo, first :: rest = done ++ ev :: todo →
   armed (Dev.at_time ev) (rebuild_times (Dev.log st))
         (Dev.run_events W K cfg (done ++ [ev]) st))
∧ let st' := Dev.advance W K T (Dev.run_events W K cfg (first :: rest) st) in
  rebuild_times (Dev.log st')
  = rebuild_times (Dev.log st) ++ [Dev.at_time (List.last rest first) + 100]
  ∧ Dev.timers st' = [] ∧ Dev.timeout st' = None.
Proof.
inversion Htracked as [|? ? Hfirst Hrest]; subst.
set (st1 := Dev.emit cfg (Dev.kind first) (Dev.file first)
              (Dev.advance W K (Dev.at_time first) st)).
assert (H1 : armed (Dev.at_time first) (rebuild_times (Dev.log st)) st1).
{ apply (event_arms W K cfg 0); [by left|exact Hnow|exact Hfirst]. }
split.
- intros done ev todo Heq. destruct done as [|d done].
  + simpl in Heq. injection Heq as <- _. exact H1.
  + simpl in Heq. injection Heq as <- Hr.
    change (Dev.run_events W K cfg ((first :: done) ++ [ev]) st)
      with (Dev.run_events W K cfg (done ++ [ev]) st1).
    replace (Dev.at_time ev)
      with (foldl (λ _ e, Dev.at_time e) (Dev.at_time first) (done ++ [ev]))
      by (by rewrite foldl_app).
    apply run_events_armed; [exact H1| |].
    * apply (within_window_prefix _ _ todo). rewrite <- app_assoc. simpl.
      rewrite <- Hr. exact Hburst.
    * rewrite Hr in Hrest. apply Forall_app in Hrest as [Hd Hev].
      apply Forall_app. split; [exact Hd|]. constructor; [|constructor].
      by inversion Hev.
- change (Dev.run_events W K cfg (first :: rest) st)
    with (Dev.run_events W K cfg rest st1).
  apply (armed_fires W K (Dev.at_time (List.last rest first))); [|exact HT].
  rewrite <- last_time_foldl. by apply run_events_armed.
Qed.

End Coalescing.

Lemma debounce_burst_witness :
(Dev.timeout started = None ∧ Dev.timers started = [])
∧ Forall (tracked_add_unlink example_config) (burst_first :: burst_rest)
∧ within_window (Dev.at_time burst_first) burst_rest
∧ rebuild_times
    (Dev.log (Dev.advance example_world kit_constants 1000
                (Dev.run_events example_world kit_constants example_config
                   (burst_first :: burst_rest) started)))
  = [0; 250].
Proof.
assert (Htracked : Forall (tracked_add_unlink example_config) (burst_first :: burst_rest)).
{ repeat (constructor; [split; [(by left) || (by right)|reflexivity]|]). constructor. }
assert (Hwindow : within_window (Dev.at_time burst_first) burst_rest).
{ simpl. lia. }
assert (Hnow : Dev.now started ≤ Dev.at_time burst_first) by (simpl; lia).
assert (HT : Dev.at_time (List.last burst_rest burst_first) + 100 ≤ 1000) by (simpl; lia).
split; [by split|]. split; [exact Htracked|]. split; [exact Hwindow|].
exact (proj1 (proj2 (debounce_coalesces_burst example_world kit_constants example_config
                       burst_first burst_rest started 1000 (conj eq_refl eq_refl)
                       Hnow Htracked Hwindow HT))).
Defined.

(** ** The restart flag *)

(** With the flag set, the tracker's listener and the app-template
    listener do nothing: what is left of a [change] event is the
    configuration listener and the ['all'] listener. *)
Lemma restarting_gates_change_listeners (cfg : Dev.Config) (file : string) (st : Dev.State) :
Dev.restarting st = true →
Dev.emit cfg Dev.Change file st = Dev.on_all cfg file (Dev.on_change_config file st).
Proof.
intros Hr. unfold Dev.emit, Dev.on_change_tracked, Dev.on_change_template.
rewrite Hr, orb_true_r.
destruct (Dev.watched cfg file); rewrite Hr, andb_false_r; by destruct (negb _).
Qed.

Lemma debounce_restarting (tk : Dev.task) (st : Dev.State) :
Dev.restarting (Dev.debounce tk st) = Dev.restarting st.
Proof. unfold Dev.debounce. by destruct (Dev.timeout st). Qed.

(** No listener ever resets the flag. *)
Lemma restarting_persists (cfg : Dev.Config) (k : Dev.watch_kind) (file : string)
  (st : Dev.State) :
Dev.restarting st = true → Dev.restarting (Dev.emit cfg k file st) = true.
Proof.
intros Hr.
assert (Hall : ∀ s, Dev.restarting s = true → Dev.restarting (Dev.on_all cfg file s) = true).
{ intros s Hs. unfold Dev.on_all. by case_match. }
assert (Hcfg : ∀ s, Dev.restarting (Dev.on_change_config file s) = true ∨
                    Dev.on_change_config file s = s).
{ intros s. unfold Dev.on_change_config. case_match; [by left|by right]. }
assert (Htpl : ∀ s, Dev.restarting (Dev.on_change_template cfg file s) = Dev.restarting s).
{ intros s. unfold Dev.on_change_template. by repeat case_match. }
assert (Htr : ∀ s, Dev.restarting (Dev.on_change_tracked cfg file s) = Dev.restarting s).
{ intros s. unfold Dev.on_change_tracked. by repeat case_match. }
unfold Dev.emit. apply Hall. destruct k; try exact Hr.
- unfold Dev.on_add_unlink. case_match; [by rewrite debounce_restarting|exact Hr].
- unfold Dev.on_add_unlink. case_match; [by rewrite debounce_restarting|exact Hr].
- destruct (Hcfg (Dev.on_change_template cfg file (Dev.on_change_tracked cfg file st)))
    as [H|H]; [exact H|]. by rewrite H, Htpl, Htr.
Qed.

(** C8 fails on the code: the ['all'] listener and the debounced rebuild do
    not look at the restart flag.  After the configuration file has
    changed, a change of the error template still regenerates the server
    artifacts, an added route file still rebuilds the manifest 100 ms
    later, and when that rebuild clears a manifest error it sends a
    full-reload notification. *)
Theorem restart_flag_leaves_listeners_running :
Dev.restarting restart_requested = true
∧ Dev.log (Dev.emit example_config Dev.Change "/proj/src/error.html" restart_requested)
  = Dev.log restart_requested ++ [(0, Dev.SyncServer)]
∧ rebuild_times
    (Dev.log (Dev.advance example_world kit_constants 200
                (Dev.run_events example_world kit_constants example_config
                   [route_added] restart_requested)))
  = [0; 150]
∧ let recovering :=
    Dev.emit example_config Dev.Change "/proj/svelte.config.js" failed in
  Dev.restarting recovering = true
  ∧ last (Dev.log (Dev.advance example_world kit_constants 200
                     (Dev.run_events example_world kit_constants example_config
                        [route_added] recovering)))
    = Some (150, Dev.WsSend Dev.FullReload).
Proof. repeat split. Qed.

(** ** has_correct_case and the asset middleware *)

Lemma length_rev_app (s t : string) :
String.length (String.rev_app s t) = String.length s + String.length t.
Proof.
revert t. induction s as [|c s IH]; intros t; [reflexivity|].
simpl. rewrite IH. simpl. lia.
Qed.

Lemma length_rev (s : string) : String.length (String.rev s) = String.length s.
Proof. unfold String.rev. rewrite length_rev_app. simpl. lia. Qed.

Lemma dirname_scan_bound (r : string) (i : nat) (b : bool) (e : nat) :
String.length r ≤ i → Path.dirname_scan r i b = Some e →
e ≤ i ∧ (b = true → e < i).
Proof.
revert i b. induction r as [|c r IH]; intros i b Hlen H; [discriminate|].
simpl in Hlen, H. destruct (Path.is_slash c).
- destruct b.
  + destruct (IH (i - 1) true) as [H1 H2]; [lia|exact H|]. specialize (H2 eq_refl). lia.
  + injection H as <-. split; [lia|discriminate].
- destruct (IH (i - 1) false) as [H1 _]; [lia|exact H|]. lia.
Qed.

(** A path of two characters or more is longer than its [dirname]. *)
Lemma dirname_shrinks (p : string) :
2 ≤ String.length p → String.length (Path.dirname p) < String.length p.
Proof.
destruct p as [|c0 tail]; [simpl; lia|]. intros Hlen. unfold Path.dirname.
destruct (Path.dirname_scan _ _ true) as [e|] eqn:Hscan.
- apply dirname_scan_bound in Hscan as [Hle Hlt];
    [|rewrite length_rev; simpl; lia].
  specialize (Hlt eq_refl). simpl String.length in *.
  destruct (Path.is_slash c0 && (e =? 1)) eqn:Hroot.
  + apply andb_true_iff in Hroot as [_ He]. apply Nat.eqb_eq in He. simpl. lia.
  + rewrite slice_prefix by (simpl; lia). rewrite str_length_take by (simpl; lia). lia.
- destruct (Path.is_slash c0); simpl in *; lia.
Qed.

(** The [dirname] of a path of at most one character is "/" or ".", which
    are their own [dirname]. *)
Lemma dirname_small_fixed (p : string) :
String.length p ≤ 1 → Path.dirname (Path.dirname p) = Path.dirname p.
Proof.
destruct p as [|c [|d p]]; simpl; intros H; [reflexivity| |lia].
by destruct (Path.is_slash c).
Qed.

Section CorrectCase.
Variable readdir : string → Js.completion (list string).
Variable assets : string.

Lemma has_correct_case_upto_S (n : nat) (file : string) (r : Js.completion bool) :
Dev.has_correct_case_upto readdir n file assets = Some r →
Dev.has_correct_case_upto readdir (S n) file assets = Some r.
Proof.
revert file. induction n as [|n IH]; intros file H; [discriminate|].
simpl in H. change (Dev.has_correct_case_upto readdir (S (S n)) file assets)
  with (if String.eqb file assets then Some (Js.Return true)
        else match readdir (Path.dirname file) with
             | Js.Throw e => Some (Js.Throw e)
             | Js.Return names =>
                 if Js.includes names (Path.basename file)
                 then Dev.has_correct_case_upto readdir (S n) (Path.dirname file) assets
                 else Some (Js.Return false)
             end).
destruct (String.eqb file assets); [exact H|].
destruct (readdir (Path.dirname file)) as [names|e]; [|exact H].
destruct (Js.includes names (Path.basename file)); [|exact H].
by apply IH.
Qed.

Lemma has_correct_case_upto_mono (n m : nat) (file : string) (r : Js.completion bool) :
n ≤ m →
Dev.has_correct_case_upto readdir n file assets = Some r →
Dev.has_correct_case_upto readdir m file assets = Some r.
Proof.
induction 1 as [|m _ IH]; [done|]. intros H. by apply has_correct_case_upto_S, IH.
Qed.

Lemma has_correct_case_upto_fixed (n : nat) (p : string) (r : Js.completion bool) :
Path.dirname p = p →
Dev.has_correct_case_upto readdir n p assets = Some r →
Dev.has_correct_case_upto readdir 1 p assets = Some r.
Proof.
intros Hfix. induction n as [|n IH]; intros H; [discriminate|].
simpl in *. destruct (String.eqb p assets); [exact H|].
destruct (readdir (Path.dirname p)) as [names|e]; [|exact H].
destruct (Js.includes names (Path.basename p)); [|exact H].
rewrite Hfix in H. specialize (IH H). discriminate.
Qed.

Lemma has_correct_case_upto_bound (n : nat) (file : string) (r : Js.completion bool) :
Dev.has_correct_case_upto readdir n file assets = Some r →
Dev.has_correct_case_upto readdir (String.length file + 3) file assets = Some r.
Proof.
revert file. induction n as [|n IH]; intros file H; [discriminate|].
replace (String.length file + 3) with (S (String.length file + 2)) by lia.
simpl in *. destruct (String.eqb file assets); [exact H|].
destruct (readdir (Path.dirname file)) as [names|e]; [|exact H].
destruct (Js.includes names (Path.basename file)); [|exact H].
destruct (decide (2 ≤ String.length file)) as [Hlong|Hshort].
- apply (has_correct_case_upto_mono (String.length (Path.dirname file) + 3));
    [pose proof (dirname_shrinks file Hlong); lia|]. by apply IH.
- apply (has_correct_case_upto_mono 1); [lia|].
  apply (has_correct_case_upto_fixed n); [|exact H].
  apply dirname_small_fixed. lia.
Qed.

(** Whenever the recursion ends, with whatever number of frames,
    [has_correct_case] is its result; it throws the overflow error only
    when the recursion ends for no number of frames. *)
Lemma has_correct_case_adequate (file : string) :
(∀ n r, Dev.has_correct_case_upto readdir n file assets = Some r →
        Dev.has_correct_case readdir file assets = r)
∧ ((∀ n, Dev.has_correct_case_upto readdir n file assets = None) →
   Dev.has_correct_case readdir file assets = Js.Throw Dev.stack_overflow).
Proof.
split.
- intros n r H. unfold Dev.has_correct_case.
  by rewrite (has_correct_case_upto_bound n file r H).
- intros H. unfold Dev.has_correct_case. by rewrite H.
Qed.

(** The walk of the specification: from a file up to the assets root,
    each name is listed, as it is written, in its parent directory. *)
Inductive correct_case_walk : string → Prop :=
| walk_root : correct_case_walk assets
| walk_step (file : string) (names : list string) :
    readdir (Path.dirname file) = Js.Return names →
    Path.basename file ∈ names →
    correct_case_walk (Path.dirname file) →
    correct_case_walk file.

Lemma includes_elem_of (names : list string) (x : string) :
Js.includes names x = true ↔ x ∈ names.
Proof.
unfold Js.includes. rewrite existsb_exists. split.
- intros (y & Hin & Heq). apply String.eqb_eq in Heq as ->. by apply list_elem_of_In.
- intros Hin. exists x. split; [by apply list_elem_of_In|apply String.eqb_refl].
Qed.

Lemma has_correct_case_upto_walk (n : nat) (file : string) :
Dev.has_correct_case_upto readdir n file assets = Some (Js.Return true) →
correct_case_walk file.
Proof.
revert file. induction n as [|n IH]; intros file H; [discriminate|].
simpl in H. destruct (String.eqb file assets) eqn:Heq.
- apply String.eqb_eq in Heq as ->. constructor.
- destruct (readdir (Path.dirname file)) as [names|e] eqn:Hdir; [|discriminate].
  destruct (Js.includes names (Path.basename file)) eqn:Hinc; [|discriminate].
  apply (walk_step file names Hdir); [by apply includes_elem_of|by apply IH].
Qed.

Lemma walk_has_correct_case_upto (file : string) :
correct_case_walk file →
∃ n, Dev.has_correct_case_upto readdir n file assets = Some (Js.Return true).
Proof.
induction 1 as [|file names Hdir Hin _ [n IH]].
- exists 1. simpl. by rewrite String.eqb_refl.
- exists (S n). simpl. destruct (String.eqb file assets); [reflexivity|].
  rewrite Hdir. apply includes_elem_of in Hin. by rewrite Hin.
Qed.

Lemma has_correct_case_iff_walk (file : string) :
Dev.has_correct_case readdir file assets = Js.Return true ↔ correct_case_walk file.
Proof.
split.
- unfold Dev.has_correct_case.
  destruct (Dev.has_correct_case_upto _ _ _ _) as [r|] eqn:H; [|discriminate].
  intros ->. by apply (has_correct_case_upto_walk _ _ H).
- intros [n Hn]%walk_has_correct_case_upto.
  by apply (proj1 (has_correct_case_adequate file) n).
Qed.

End CorrectCase.

(** ** has_correct_case on a path given by its segments *)

Fixpoint no_slash (s : string) : bool :=
match s with
| EmptyString => true
| String c r => negb (Path.is_slash c) && no_slash r
end.

(** A directory name as [dev] holds them: not empty, no trailing slash. *)
Definition names_directory (p : string) : Prop :=
∃ q c, p = q +:+ String c EmptyString ∧ Path.is_slash c = false.

(** A file name: not empty, no slash. *)
Definition segment (s : string) : Prop := s ≠ EmptyString ∧ no_slash s = true.

Definition child (dir name : string) : string := dir +:+ "/" +:+ name.

Definition join (root : string) (segs : list string) : string := foldl child root segs.

Lemma rev_app_append (s t : string) : String.rev_app s t = String.rev s +:+ t.
Proof.
unfold String.rev. revert t. induction s as [|a s IH]; intros t; [reflexivity|].
simpl. rewrite (IH (String a t)), (IH (String a "")). by rewrite str_app_assoc.
Qed.

Lemma rev_cons (a : ascii) (s : string) : String.rev (String a s) = String.rev s +:+ String a "".
Proof. unfold String.rev at 1. simpl. apply rev_app_append. Qed.

Lemma rev_append (s t : string) : String.rev (s +:+ t) = String.rev t +:+ String.rev s.
Proof.
induction s as [|a s IH]; [by rewrite str_app_nil_l, str_app_nil_r|].
by rewrite str_app_cons, !rev_cons, IH, str_app_assoc.
Qed.

Lemma no_slash_append (s t : string) : no_slash (s +:+ t) = no_slash s && no_slash t.
Proof.
induction s as [|a s IH]; [reflexivity|]. rewrite str_app_cons. simpl.
by rewrite IH, andb_assoc.
Qed.

Lemma no_slash_rev (s : string) : no_slash (String.rev s) = no_slash s.
Proof.
induction s as [|a s IH]; [reflexivity|].
rewrite rev_cons, no_slash_append, IH. simpl. rewrite andb_true_r. apply andb_comm.
Qed.

Lemma rev_nonempty (s : string) : s ≠ EmptyString → String.rev s ≠ EmptyString.
Proof.
destruct s as [|a s]; [done|]. intros _ H.
apply (f_equal String.length) in H. rewrite length_rev in H. discriminate.
Qed.

Lemma dirname_scan_name (u v : string) (i : nat) :
no_slash u = true →
Path.dirname_scan (u +:+ String "/" v) i false = Some (i - String.length u).
Proof.
revert i. induction u as [|c u IH]; intros i Hu.
- rewrite str_app_nil_l. simpl. f_equal. lia.
- simpl in Hu. apply andb_true_iff in Hu as [Hc Hu]. apply negb_true_iff in Hc.
  rewrite str_app_cons. simpl. rewrite Hc, IH by exact Hu. f_equal. lia.
Qed.

Lemma basename_scan_name (u v : string) (i e : nat) :
no_slash u = true →
Path.basename_scan (u +:+ String "/" v) i false (Some e)
= (i - String.length u + 1, Some e).
Proof.
revert i. induction u as [|c u IH]; intros i Hu.
- rewrite str_app_nil_l. simpl. f_equal. lia.
- simpl in Hu. apply andb_true_iff in Hu as [Hc Hu]. apply negb_true_iff in Hc.
  rewrite str_app_cons. simpl. rewrite Hc, IH by exact Hu. f_equal. lia.
Qed.

Lemma slice_middle (a s : string) :
Js.slice (a +:+ s) (Z.of_nat (String.length a)) (Z.of_nat (String.length (a +:+ s))) = s.
Proof.
unfold Js.slice.
replace (Z.of_nat (String.length a) <? 0)%Z with false by (symmetry; apply Z.ltb_ge; lia).
replace (Z.of_nat (String.length (a +:+ s)) <? 0)%Z with false
  by (symmetry; apply Z.ltb_ge; lia).
rewrite !Z.min_l by (rewrite ?str_length_app; lia).
rewrite Nat2Z.id, str_drop_app, <- Nat2Z.inj_sub by (rewrite str_length_app; lia).
rewrite Nat2Z.id, str_length_app.
replace (String.length a + String.length s - String.length a) with (String.length s) by lia.
rewrite <- (str_app_nil_r s) at 2. apply str_take_app.
Qed.

Lemma dirname_child (dir name : string) :
names_directory dir → segment name → Path.dirname (child dir name) = dir.
Proof.
intros (q & c & Hdir & Hc) [Hne Hname]. unfold child.
destruct dir as [|c0 dir']; [by destruct q|].
rewrite str_app_cons. unfold Path.dirname.
rewrite !rev_append. change (String.rev "/") with "/".
rewrite str_app_assoc, (str_app_cons "/"), str_app_nil_l.
destruct (String.rev name) as [|r rs] eqn:Hrev; [by apply rev_nonempty in Hrev|].
pose proof (no_slash_rev name) as Hns. rewrite Hrev, Hname in Hns. simpl in Hns.
apply andb_true_iff in Hns as [Hr Hrs]. apply negb_true_iff in Hr.
rewrite str_app_cons. simpl Path.dirname_scan. rewrite Hr.
rewrite dirname_scan_name by exact Hrs.
assert (Hlen : String.length (String r rs) = String.length name)
  by (rewrite <- Hrev; apply length_rev).
simpl in Hlen. simpl String.length. rewrite !str_length_app. simpl String.length.
match goal with
| |- context [Z.of_nat ?e] => replace e with (S (String.length dir')) by lia
end.
assert (Hroot : Path.is_slash c0 && (S (String.length dir') =? 1) = false).
{ destruct dir' as [|d dir']; [|by rewrite andb_false_r].
  destruct q as [|q0 q]; [|by destruct q]. injection Hdir as ->. by rewrite Hc. }
rewrite Hroot, <- str_app_cons, slice_prefix by (rewrite str_length_app; simpl; lia).
apply (str_take_app (String c0 dir')).
Qed.

Lemma basename_child (dir name : string) :
segment name → Path.basename (child dir name) = name.
Proof.
intros [Hne Hname]. unfold child, Path.basename.
rewrite <- str_app_assoc, rev_append.
destruct (String.rev name) as [|r rs] eqn:Hrev; [by apply rev_nonempty in Hrev|].
pose proof (no_slash_rev name) as Hns. rewrite Hrev, Hname in Hns. simpl in Hns.
apply andb_true_iff in Hns as [Hr Hrs]. apply negb_true_iff in Hr.
assert (Hlen : String.length (String r rs) = String.length name)
  by (rewrite <- Hrev; apply length_rev).
simpl in Hlen.
rewrite rev_append. change (String.rev "/") with "/".
rewrite str_app_cons, str_app_cons, str_app_nil_l. simpl Path.basename_scan. rewrite Hr.
rewrite basename_scan_name by exact Hrs.
set (path := (dir +:+ "/") +:+ name).
assert (Hpath : String.length path = String.length (dir +:+ "/") + String.length name)
  by apply str_length_app.
assert (Hdirlen : String.length (dir +:+ "/") = String.length dir + 1)
  by apply str_length_app.
replace (String.length path - 1 - 1 - String.length rs + 1)
  with (String.length (dir +:+ "/")) by lia.
replace (String.length path - 1 + 1) with (String.length path) by lia.
apply slice_middle.
Qed.

Lemma child_names_directory (dir name : string) : segment name → names_directory (child dir name).
Proof.
intros [Hne Hname]. unfold child, names_directory.
destruct (String.rev name) as [|r rs] eqn:Hrev; [by apply rev_nonempty in Hrev|].
pose proof (no_slash_rev name) as Hns. rewrite Hrev, Hname in Hns. simpl in Hns.
apply andb_true_iff in Hns as [Hr _]. apply negb_true_iff in Hr.
exists (dir +:+ "/" +:+ String.rev rs), r. split; [|exact Hr].
rewrite !str_app_assoc. do 2 f_equal.
assert (Hname' : name = String.rev (String.rev name)).
{ clear. induction name as [|a s IH]; [reflexivity|].
  by rewrite rev_cons, rev_append, <- IH. }
by rewrite Hname', Hrev, rev_cons.
Qed.

Section AlongSegments.
Variable readdir : string → Js.completion (list string).

(** Going down from [dir], each segment is listed in the directory reached
    so far. *)
Fixpoint listed_along (dir : string) (segs : list string) : Prop :=
match segs with
| [] => True
| s :: rest =>
    (∃ names, readdir dir = Js.Return names ∧ s ∈ names)
    ∧ listed_along (child dir s) rest
end.

Lemma listed_along_snoc (dir : string) (segs : list string) (s : string) :
listed_along dir (segs ++ [s]) ↔
listed_along dir segs ∧ ∃ names, readdir (join dir segs) = Js.Return names ∧ s ∈ names.
Proof.
revert dir. induction segs as [|x segs IH]; intros dir; simpl.
- tauto.
- rewrite IH. unfold join. simpl. tauto.
Qed.

Lemma join_snoc (root : string) (segs : list string) (s : string) :
join root (segs ++ [s]) = child (join root segs) s.
Proof. unfold join. by rewrite foldl_app. Qed.

Lemma join_names_directory (root : string) (segs : list string) :
names_directory root → Forall segment segs → names_directory (join root segs).
Proof.
intros Hroot. induction segs as [|s segs IH] using rev_ind; intros Hsegs; [exact Hroot|].
apply Forall_app in Hsegs as [_ Hs]. rewrite join_snoc.
apply child_names_directory. by inversion Hs.
Qed.

Lemma length_join (root : string) (segs : list string) :
String.length root ≤ String.length (join root segs).
Proof.
induction segs as [|s segs IH] using rev_ind; [done|].
rewrite join_snoc. unfold child. rewrite !str_length_app. lia.
Qed.

Lemma walk_child (root dir name : string) :
names_directory dir → segment name → String.length root ≤ String.length dir →
correct_case_walk readdir root (child dir name) ↔
(∃ names, readdir dir = Js.Return names ∧ name ∈ names) ∧ correct_case_walk readdir root dir.
Proof.
intros Hdir Hname Hlen. split.
- intros Hwalk. inversion Hwalk as [Hroot|file names Hread Hin Hup Hfile].
  + exfalso. apply (f_equal String.length) in Hroot. unfold child in Hroot.
    rewrite !str_length_app in Hroot. simpl in Hroot. lia.
  + rewrite dirname_child in Hread, Hup by done. rewrite basename_child in Hin by done.
    split; [by exists names|exact Hup].
- intros [(names & Hread & Hin) Hup].
  apply (walk_step readdir root (child dir name) names).
  + by rewrite dirname_child.
  + by rewrite basename_child.
  + by rewrite dirname_child.
Qed.

(** For a file given by its segments below the assets root,
    [has_correct_case] returns true exactly when, going down from the
    root, each segment is listed as it is written in the directory reached
    so far. *)
Lemma has_correct_case_along_segments (root : string) (segs : list string) :
names_directory root → Forall segment segs →
Dev.has_correct_case readdir (join root segs) root = Js.Return true
↔ listed_along root segs.
Proof.
intros Hroot. rewrite has_correct_case_iff_walk.
induction segs as [|s segs IH] using rev_ind; intros Hsegs.
- split; [done|]. intros _. constructor.
- apply Forall_app in Hsegs as [Hsegs Hs]. inversion Hs as [|? ? Hseg _]; subst.
  rewrite join_snoc, listed_along_snoc, <- (IH Hsegs).
  rewrite walk_child; [tauto|by apply join_names_directory|exact Hseg|apply length_join].
Qed.

End AlongSegments.

Section AssetMiddleware.
Context {Request : Type}.
Variable W : Dev.World Request.
Variable K : Dev.Constants.
Variable cfg : Dev.Config.

(** C4. The asset middleware hands a request to the asset server exactly
    when the decoded path starts with the assets prefix and the file it
    names under the assets directory exists, is not a directory and has
    the correct case; and [has_correct_case] returns true exactly when the
    walk from the file up to the assets root finds each name, as written,
    in the listing of its parent: for a file given by its segments below
    the root, exactly when each segment is listed in the directory above
    it.  Only [readdirSync] is consulted: no path is canonicalised. *)
Theorem assets_served_only_in_exact_case :
(∀ req served,
   Dev.serve_assets W K cfg req = Dev.AssetServer served ↔
   ∃ decoded,
     Dev.decode_pathname W (Dev.request_base cfg req) (Dev.url req) = Js.Return decoded
     ∧ Js.startsWith decoded (Dev.assets_prefix K cfg) = true
     ∧ let pathname := Js.slice_from decoded (String.length (Dev.assets_prefix K cfg)) in
       let file := Dev.files_assets cfg +:+ pathname in
       Dev.existsSync W file = true
       ∧ Dev.statSync_isDirectory W file = Js.Return false
       ∧ Dev.has_correct_case (Dev.readdirSync W) file (Dev.files_assets cfg) = Js.Return true
       ∧ served = Dev.encodeURI W pathname)
∧ (∀ file assets,
     Dev.has_correct_case (Dev.readdirSync W) file assets = Js.Return true
     ↔ correct_case_walk (Dev.readdirSync W) assets file)
∧ (∀ root segs, names_directory root → Forall segment segs →
     Dev.has_correct_case (Dev.readdirSync W) (join root segs) root = Js.Return true
     ↔ listed_along (Dev.readdirSync W) root segs).
Proof.
split; [|split; [intros; apply has_correct_case_iff_walk
                |intros; by apply has_correct_case_along_segments]].
intros req served. unfold Dev.serve_assets. split.
- destruct (Dev.decode_pathname W _ _) as [decoded|e]; [|discriminate].
  intros H. exists decoded. split; [reflexivity|].
  destruct (Js.startsWith decoded _); [|discriminate]. split; [reflexivity|].
  simpl. destruct (Dev.existsSync W _); [|discriminate]. split; [reflexivity|].
  destruct (Dev.statSync_isDirectory W _) as [[|]|e]; try discriminate.
  split; [reflexivity|].
  destruct (Dev.has_correct_case _ _ _) as [[|]|e]; try discriminate.
  split; [reflexivity|]. by injection H.
- intros (decoded & -> & -> & Hex & Hdir & Hcase & ->). simpl in *.
  by rewrite Hex, Hdir, Hcase.
Qed.

End AssetMiddleware.

Lemma assets_exact_case_witness :
Dev.serve_assets example_world kit_constants example_config (get "/Logo.png")
  = Dev.AssetServer "/Logo.png"
∧ correct_case_walk example_readdir "/proj/static" "/proj/static/Logo.png"
∧ Dev.serve_assets example_world kit_constants example_config (get "/logo.png") = Dev.Next
∧ ¬ correct_case_walk example_readdir "/proj/static" "/proj/static/logo.png"
∧ (names_directory "/proj/static" ∧ Forall segment ["Logo.png"]
   ∧ listed_along example_readdir "/proj/static" ["Logo.png"]).
Proof.
destruct (assets_served_only_in_exact_case example_world kit_constants example_config)
  as (Hserved & Hwalk & Hsegs).
assert (Hup : Dev.serve_assets example_world kit_constants example_config (get "/Logo.png")
              = Dev.AssetServer "/Logo.png") by reflexivity.
assert (Hroot : names_directory "/proj/static").
{ exists "/proj/stati", "c"%char. split; reflexivity. }
assert (Hseg : Forall segment ["Logo.png"]).
{ constructor; [split; [discriminate|reflexivity]|constructor]. }
split; [exact Hup|]. split; [|split; [reflexivity|split]].
- destruct (proj1 (Hserved _ _) Hup) as (decoded & Hdec & _ & _ & _ & Hcase & _).
  injection Hdec as <-. exact (proj1 (Hwalk _ _) Hcase).
- intros Hw. apply (proj2 (Hwalk _ _)) in Hw. vm_compute in Hw. discriminate.
- split; [exact Hroot|]. split; [exact Hseg|].
  exact (proj1 (Hsegs "/proj/static" ["Logo.png"] Hroot Hseg) eq_refl).
Defined.

(** ** The request router *)

(** The replacement text contains one of the patterns [$$], [$&], [$`],
    [$'] that [String.prototype.replace] expands. *)
Fixpoint has_dollar_pattern (repl : string) : bool :=
match repl with
| EmptyString => false
| String c t =>
    (Ascii.eqb c "$"
     && match t with
        | String d _ => Ascii.eqb d "$" || Ascii.eqb d "`" || Ascii.eqb d "&" || Ascii.eqb d "'"
        | EmptyString => false
        end)
    || has_dollar_pattern t
end.

(** Replacing every occurrence of [pat] by the text [repl] as it stands:
    occurrences are taken from left to right and do not overlap. *)
Fixpoint substitute_go (pat repl : string) (skip : nat) (s : string) : string :=
match s with
| EmptyString => EmptyString
| String c s' =>
    match skip with
    | S k => substitute_go pat repl k s'
    | O =>
        if String.prefix pat s
        then repl +:+ substitute_go pat repl (String.length pat - 1) s'
        else String c (substitute_go pat repl 0 s')
    end
end.

Definition substitute (pat repl s : string) : string := substitute_go pat repl 0 s.

Lemma get_substitution_plain (matched before after repl : string) :
has_dollar_pattern repl = false → Js.get_substitution matched before after repl = repl.
Proof.
induction repl as [|c t IH]; [reflexivity|]. intros H.
simpl in H. apply orb_false_iff in H as [Hhead Htail]. specialize (IH Htail).
simpl. destruct (Ascii.eqb c "$"); [|by rewrite IH].
destruct t as [|d r]; [reflexivity|]. simpl in Hhead.
apply orb_false_iff in Hhead as [Hhead H4]. apply orb_false_iff in Hhead as [Hhead H3].
apply orb_false_iff in Hhead as [H1 H2]. rewrite H1, H2, H3, H4. by rewrite IH.
Qed.

Lemma replace_go_cons (pat repl : string) (skip : nat) (before : string) (c : ascii) (s : string) :
Js.replace_go pat repl skip before (String c s) =
  match skip with
  | S k => Js.replace_go pat repl k (before +:+ String c EmptyString) s
  | O =>
      if String.prefix pat (String c s) then
        Js.get_substitution pat before (Js.drop (String.length pat) (String c s)) repl
        +:+ Js.replace_go pat repl (String.length pat - 1) (before +:+ String c EmptyString) s
      else String c (Js.replace_go pat repl 0 (before +:+ String c EmptyString) s)
  end.
Proof. reflexivity. Qed.

Lemma substitute_go_cons (pat repl : string) (skip : nat) (c : ascii) (s : string) :
substitute_go pat repl skip (String c s) =
  match skip with
  | S k => substitute_go pat repl k s
  | O =>
      if String.prefix pat (String c s)
      then repl +:+ substitute_go pat repl (String.length pat - 1) s
      else String c (substitute_go pat repl 0 s)
  end.
Proof. reflexivity. Qed.

Lemma replace_go_plain (pat repl : string) (skip : nat) (before s : string) :
has_dollar_pattern repl = false →
Js.replace_go pat repl skip before s = substitute_go pat repl skip s.
Proof.
intros Hplain. revert skip before. induction s as [|c s IH]; intros skip before; [reflexivity|].
rewrite replace_go_cons, substitute_go_cons. destruct skip as [|k]; [|apply IH].
destruct (String.prefix pat (String c s)).
- rewrite get_substitution_plain by exact Hplain. by rewrite IH.
- by rewrite IH.
Qed.

Lemma replace_all_plain (s pat repl : string) :
has_dollar_pattern repl = false → Js.replace_all s pat repl = substitute pat repl s.
Proof. apply replace_go_plain. Qed.

Lemma find_first_match {A} (p : A → bool) (xs : list A) (x : A) :
Js.find p xs = Some x ↔
∃ before after, xs = before ++ x :: after ∧ p x = true ∧ Forall (λ y, p y = false) before.
Proof.
induction xs as [|y xs IH]; simpl.
- split; [discriminate|]. intros (b & a & H & _). by destruct b.
- destruct (p y) eqn:Hy.
  + split.
    * intros [= ->]. exists [], xs. by repeat split.
    * intros (b & a & Heq & Hx & Hb). destruct b as [|z b].
      -- by injection Heq as ->.
      -- injection Heq as -> _. inversion Hb; congruence.
  + rewrite IH. split.
    * intros (b & a & -> & Hx & Hb). exists (y :: b), a. repeat split; [done|]. by constructor.
    * intros (b & a & Heq & Hx & Hb). destruct b as [|z b].
      -- injection Heq as -> _. congruence.
      -- injection Heq as -> ->. exists b, a. split; [done|]. split; [done|]. by inversion Hb.
Qed.

Section Router.
Context {Request : Type}.
Variable W : Dev.World Request.
Variable cfg : Dev.Config.

(** The request as the router sees it after [req.url = req.originalUrl]. *)
Definition restored (req : Dev.IncomingMessage) : Dev.IncomingMessage :=
Dev.mkReq (Dev.originalUrl req) (Dev.originalUrl req)
          (Dev.header_authority req) (Dev.header_host req).

(** The request gets past the early exits of the middleware: its URL
    decodes to [decoded], it is not answered from a file by Vite's static
    middleware, it lies under the base path and it is not the request for
    the service worker. *)
Definition reaches_router (req : Dev.IncomingMessage) (decoded : string) : Prop :=
Dev.decode_pathname W (Dev.request_base cfg (restored req)) (Dev.originalUrl req)
  = Js.Return decoded
∧ (let file := Dev.resolve_path W
                 (Js.slice_from decoded (String.length (Dev.paths_base cfg) + 1)) in
   ∃ is_file, Dev.is_file W file = Js.Return is_file
     ∧ is_file && (negb (Dev.server_fs_strict cfg)
                   || existsb (λ dir, Js.startsWith file dir) (Dev.server_fs_allow cfg))
       = false)
∧ Js.startsWith decoded (Dev.paths_base cfg) = true
∧ decoded ≠ Dev.paths_base cfg +:+ "/service-worker.js".

(** The request gets as far as the test of [manifest_error]: it gets past
    the early exits, and [getRequest], awaited just before that test,
    returns [request] for it instead of throwing. *)
Definition reaches_manifest_check (req : Dev.IncomingMessage) (decoded : string)
  (request : Request) : Prop :=
reaches_router req decoded
∧ Dev.getRequest W (Dev.request_base cfg (restored req)) (restored req) = Js.Return request.

(** What the router does once it is known what the manifest and the
    dispatch do, with the request that [getRequest] has returned. *)
Definition route_request (st : Dev.State) (req : Dev.IncomingMessage) (request : Request) :
  list (string * Request) * Dev.outcome :=
match Dev.manifest_error st with
| Some error =>
    ([], Dev.WriteEnd 500 [("Content-Type", "text/html; charset=utf-8")]
           (Dev.error_template (Dev.load_error_page W) "500"
              (Js.nullish (Js.message error) "Invalid routes")))
| None =>
    match Dev.manifest_data st with
    | None => ([], Dev.Status500 (Dev.fix_stack_trace W (Dev.type_error "routes")))
    | Some manifest =>
        let name := Dev.environment_name (Dev.find_route manifest (Dev.originalUrl req)) in
        match Dev.environments st !! name with
        | None => ([], Dev.Status500 (Dev.fix_stack_trace W (Dev.type_error "dispatchFetch")))
        | Some _ =>
            match Dev.dispatchFetch W name request with
            | Js.Throw e => ([(name, request)], Dev.Status500 (Dev.fix_stack_trace W e))
            | Js.Return rendered =>
                ([(name, request)],
                 if Dev.status rendered =? 404
                 then Dev.ServeStaticOr (Dev.originalUrl req) rendered
                 else Dev.SetResponse rendered)
            end
        end
    end
end.

Lemma handle_at_router (st : Dev.State) (req : Dev.IncomingMessage) (decoded : string) :
reaches_router req decoded →
Dev.handle W cfg st req =
  match Dev.getRequest W (Dev.request_base cfg (restored req)) (restored req) with
  | Js.Throw e => ([], Dev.Status500 (Dev.fix_stack_trace W e))
  | Js.Return request => route_request st req request
  end.
Proof.
intros (Hdec & (is_file & Hfile & Hserve) & Hbase & Hsw).
unfold Dev.handle, route_request. fold (restored req). simpl Dev.url.
rewrite Hdec. simpl in Hfile. rewrite Hfile, Hserve, Hbase. simpl negb. cbv iota.
destruct (String.eqb_spec decoded (Dev.paths_base cfg +:+ "/service-worker.js")); [done|].
reflexivity.
Qed.

Lemma handle_at_manifest_check (st : Dev.State) (req : Dev.IncomingMessage)
  (decoded : string) (request : Request) :
reaches_manifest_check req decoded request →
Dev.handle W cfg st req = route_request st req request.
Proof.
intros [Hreach Hreq]. by rewrite (handle_at_router st req decoded Hreach), Hreq.
Qed.

(** The other side of [getRequest]: when it throws on a request that got
    past the early exits, the [catch] answers, whatever the state of the
    manifest. *)
Lemma handle_getRequest_throws (st : Dev.State) (req : Dev.IncomingMessage)
  (decoded : string) (e : Js.Error) :
reaches_router req decoded →
Dev.getRequest W (Dev.request_base cfg (restored req)) (restored req) = Js.Throw e →
Dev.handle W cfg st req = ([], Dev.Status500 (Dev.fix_stack_trace W e)).
Proof.
intros Hreach Hreq. by rewrite (handle_at_router st req decoded Hreach), Hreq.
Qed.

End Router.

(** ** Error pages as texts and placeholders

    An error page written as a sequence of plain texts, status
    placeholders and message placeholders. *)

Inductive piece : Type :=
| Text (t : string)
| StatusHole
| MessageHole.

Fixpoint page_of (pieces : list piece) : string :=
match pieces with
| [] => EmptyString
| Text t :: rest => t +:+ page_of rest
| StatusHole :: rest => Dev.status_placeholder +:+ page_of rest
| MessageHole :: rest => Dev.message_placeholder +:+ page_of rest
end.

Fixpoint filled (status message : string) (pieces : list piece) : string :=
match pieces with
| [] => EmptyString
| Text t :: rest => t +:+ filled status message rest
| StatusHole :: rest => status +:+ filled status message rest
| MessageHole :: rest => message +:+ filled status message rest
end.

Fixpoint no_percent (t : string) : bool :=
match t with
| EmptyString => true
| String c r => negb (Ascii.eqb c "%") && no_percent r
end.

(** The texts contain no percent sign, and the percent sign that closes a
    message placeholder does not open a status placeholder. *)
Fixpoint well_delimited (pieces : list piece) : bool :=
match pieces with
| [] => true
| Text t :: rest => no_percent t && well_delimited rest
| StatusHole :: rest => well_delimited rest
| MessageHole :: rest =>
    negb (String.prefix Dev.status_placeholder (String "%" (page_of rest)))
    && well_delimited rest
end.

Lemma substitute_go_skip (pat repl u s : string) :
substitute_go pat repl (String.length u) (u +:+ s) = substitute_go pat repl 0 s.
Proof.
induction u as [|c u IH]; [reflexivity|].
rewrite str_app_cons, substitute_go_cons. exact IH.
Qed.

Lemma substitute_hole (c0 : ascii) (p repl s : string) :
substitute (String c0 p) repl (String c0 p +:+ s) = repl +:+ substitute (String c0 p) repl s.
Proof.
unfold substitute. rewrite str_app_cons, substitute_go_cons, <- str_app_cons, str_prefix_app.
replace (String.length (String c0 p) - 1) with (String.length p) by (simpl; lia).
by rewrite substitute_go_skip.
Qed.

Lemma prefix_head_differs (c0 c : ascii) (p s : string) :
c ≠ c0 → String.prefix (String c0 p) (String c s) = false.
Proof. intros Hne. simpl. by destruct (ascii_dec c0 c) as [->|]. Qed.

Lemma substitute_text (p repl t s : string) :
no_percent t = true →
substitute (String "%" p) repl (t +:+ s) = t +:+ substitute (String "%" p) repl s.
Proof.
intros Ht. unfold substitute. induction t as [|c t IH]; [reflexivity|].
simpl in Ht. apply andb_true_iff in Ht as [Hc Ht].
rewrite !str_app_cons, substitute_go_cons, prefix_head_differs.
- by rewrite IH.
- intros ->. discriminate.
Qed.

(** The first pass leaves a message placeholder as it is. *)
Lemma substitute_status_over_message (repl s : string) :
String.prefix Dev.status_placeholder (String "%" s) = false →
substitute Dev.status_placeholder repl (Dev.message_placeholder +:+ s)
= Dev.message_placeholder +:+ substitute Dev.status_placeholder repl s.
Proof.
intros Hclose. unfold substitute, Dev.message_placeholder, Dev.status_placeholder in *.
rewrite !str_app_cons, str_app_nil_l.
do 24 (rewrite substitute_go_cons;
       match goal with
       | |- context [String.prefix ?a ?b] =>
           replace (String.prefix a b) with false by reflexivity
       end; f_equal).
rewrite substitute_go_cons, Hclose. reflexivity.
Qed.

Lemma substitute_status_text (repl t s : string) :
no_percent t = true →
substitute Dev.status_placeholder repl (t +:+ s)
= t +:+ substitute Dev.status_placeholder repl s.
Proof. apply substitute_text. Qed.

Lemma substitute_message_text (repl t s : string) :
no_percent t = true →
substitute Dev.message_placeholder repl (t +:+ s)
= t +:+ substitute Dev.message_placeholder repl s.
Proof. apply substitute_text. Qed.

Lemma substitute_status_hole (repl s : string) :
substitute Dev.status_placeholder repl (Dev.status_placeholder +:+ s)
= repl +:+ substitute Dev.status_placeholder repl s.
Proof. apply substitute_hole. Qed.

Lemma substitute_message_hole (repl s : string) :
substitute Dev.message_placeholder repl (Dev.message_placeholder +:+ s)
= repl +:+ substitute Dev.message_placeholder repl s.
Proof. apply substitute_hole. Qed.

(** After the first pass the status placeholders are texts. *)
Fixpoint status_filled (status : string) (pieces : list piece) : list piece :=
match pieces with
| [] => []
| StatusHole :: rest => Text status :: status_filled status rest
| p :: rest => p :: status_filled status rest
end.

Lemma first_pass (status : string) (pieces : list piece) :
well_delimited pieces = true →
substitute Dev.status_placeholder status (page_of pieces)
= page_of (status_filled status pieces).
Proof.
induction pieces as [|[t| |] rest IH]; simpl; intros Hwd; [reflexivity|..].
- apply andb_true_iff in Hwd as [Ht Hrest].
  rewrite (substitute_status_text _ _ _ Ht). by rewrite IH.
- rewrite substitute_status_hole. by rewrite IH.
- apply andb_true_iff in Hwd as [Hclose Hrest]. apply negb_true_iff in Hclose.
  rewrite (substitute_status_over_message _ _ Hclose). by rewrite IH.
Qed.

Lemma second_pass (status message : string) (pieces : list piece) :
no_percent status = true →
well_delimited pieces = true →
substitute Dev.message_placeholder message (page_of (status_filled status pieces))
= filled status message pieces.
Proof.
intros Hstatus. induction pieces as [|[t| |] rest IH]; simpl; intros Hwd; [reflexivity|..].
- apply andb_true_iff in Hwd as [Ht Hrest].
  rewrite (substitute_message_text _ _ _ Ht). by rewrite IH.
- rewrite (substitute_message_text _ _ _ Hstatus). by rewrite IH.
- apply andb_true_iff in Hwd as [_ Hrest]. rewrite substitute_message_hole. by rewrite IH.
Qed.

(** On a well-delimited page the two substitutions fill every status
    placeholder with the status and every message placeholder with the
    message, and leave the texts as they are. *)
Lemma substitute_fills_placeholders (status message : string) (pieces : list piece) :
no_percent status = true →
well_delimited pieces = true →
substitute Dev.message_placeholder message
  (substitute Dev.status_placeholder status (page_of pieces))
= filled status message pieces.
Proof.
intros Hstatus Hwd. rewrite first_pass by exact Hwd. by apply second_pass.
Qed.

Section RouterClaims.
Context {Request : Type}.
Variable W : Dev.World Request.
Variable cfg : Dev.Config.

(** C1 (amended). While a manifest error is recorded, every request that
    reaches the test of [manifest_error] is answered, with no route lookup
    and no dispatch, by status 500 and the configured error page in which
    every occurrence of the status placeholder is replaced by "500" and
    then every occurrence of the message placeholder by the error's
    message, or by 'Invalid routes' when it has none; this for a message
    without the patterns [$$], [$&], [$`], [$'].  A request reaches the
    test when its URL decodes, the look at the file system ([existsSync],
    [statSync]) does not throw and finds no existing file that Vite may
    serve, the decoded path lies under the base path and is not the
    request for the service worker, and [getRequest] returns a request
    instead of throwing.  For a page made of texts and placeholders that
    is well delimited, the body is the page with each placeholder filled
    in. *)
Theorem manifest_error_short_circuits
  (st : Dev.State) (req : Dev.IncomingMessage) (decoded : string) (request : Request)
  (err : Js.Error)
  (Herr : Dev.manifest_error st = Some err)
  (Hreach : reaches_manifest_check W cfg req decoded request)
  (Hplain : has_dollar_pattern (Js.nullish (Js.message err) "Invalid routes") = false) :
let message := Js.nullish (Js.message err) "Invalid routes" in
let html := [("Content-Type", "text/html; charset=utf-8")] in
Dev.handle W cfg st req =
  ([], Dev.WriteEnd 500 html
         (substitute Dev.message_placeholder message
            (substitute Dev.status_placeholder "500" (Dev.load_error_page W))))
∧ ∀ pieces, Dev.load_error_page W = page_of pieces → well_delimited pieces = true →
    Dev.handle W cfg st req = ([], Dev.WriteEnd 500 html (filled "500" message pieces)).
Proof.
intros message html.
assert (Hbody : Dev.handle W cfg st req =
  ([], Dev.WriteEnd 500 html
         (substitute Dev.message_placeholder message
            (substitute Dev.status_placeholder "500" (Dev.load_error_page W))))).
{ rewrite (handle_at_manifest_check W cfg st req decoded request Hreach).
  unfold route_request. rewrite Herr. unfold Dev.error_template.
  rewrite (replace_all_plain _ _ "500") by reflexivity.
  by rewrite replace_all_plain. }
split; [exact Hbody|]. intros pieces Hpage Hwd.
rewrite Hbody, Hpage. by rewrite substitute_fills_placeholders.
Qed.


End RouterClaims.

Lemma example_reaches_router (target : string) :
Dev.existsSync example_world ("/proj/" +:+ Js.drop 1 (path_of target)) = false →
path_of target ≠ "/service-worker.js" →
reaches_router example_world example_config (get target) (path_of target).
Proof.
intros Hfile Hsw. split; [reflexivity|]. split; [|split; [by destruct (path_of target)|exact Hsw]].
exists false. split; [|reflexivity].
change (Dev.is_file example_world ("/proj/" +:+ Js.drop 1 (path_of target)) = Js.Return false).
unfold Dev.is_file. by rewrite Hfile.
Qed.

Lemma example_reaches_manifest_check (target : string) :
Dev.existsSync example_world ("/proj/" +:+ Js.drop 1 (path_of target)) = false →
path_of target ≠ "/service-worker.js" →
reaches_manifest_check example_world example_config (get target) (path_of target)
  ("http://localhost:5173" +:+ target).
Proof.
intros Hfile Hsw. split; [by apply example_reaches_router|reflexivity].
Qed.

Lemma manifest_error_witness :
Dev.manifest_error failed = Some (Js.mkError (Some "Duplicate route files: /about") "")
∧ reaches_manifest_check example_world example_config (get "/about") "/about"
    "http://localhost:5173/about"
∧ Dev.handle example_world example_config failed (get "/about") =
    ([], Dev.WriteEnd 500 [("Content-Type", "text/html; charset=utf-8")]
           "<h1>500</h1><p>Duplicate route files: /about</p>").
Proof.
assert (Hreach : reaches_manifest_check example_world example_config (get "/about") "/about"
                   "http://localhost:5173/about").
{ apply (example_reaches_manifest_check "/about"); [reflexivity|discriminate]. }
split; [reflexivity|]. split; [exact Hreach|].
exact (proj2 (manifest_error_short_circuits example_world example_config failed (get "/about")
                "/about" _ _ eq_refl Hreach eq_refl)
         [Text "<h1>"; StatusHole; Text "</h1><p>"; MessageHole; Text "</p>"]
         eq_refl eq_refl).
Defined.

(** C1, as stated, fails: with a manifest error recorded, the request for
    the service worker is answered before the error is looked at (here by
    404, the project having no service worker), not by the error page. *)
Lemma manifest_error_not_for_every_request :
is_Some (Dev.manifest_error failed)
∧ Dev.handle example_world example_config failed (get "/service-worker.js")
  = ([], Dev.WriteEnd 404 [] "not found").
Proof. split; [by eexists|reflexivity]. Qed.

(** [getRequest] is awaited before the manifest error is looked at: when
    it throws on a request that got past the early exits, the [catch]
    answers with the stack trace, and the error page is not shown. *)
Lemma getRequest_failure_preempts_error_page :
is_Some (Dev.manifest_error failed)
∧ reaches_router refusing_world example_config (get "/about") "/about"
∧ Dev.handle refusing_world example_config failed (get "/about")
  = ([], Dev.Status500 "TypeError: 'TRACE' HTTP method is unsupported.").
Proof.
assert (Hreach : reaches_router refusing_world example_config (get "/about") "/about").
{ split; [reflexivity|]. split; [|split; [reflexivity|discriminate]].
  exists false. by split. }
split; [by eexists|]. split; [exact Hreach|].
exact (handle_getRequest_throws refusing_world example_config failed (get "/about")
         "/about" refused Hreach eq_refl).
Qed.

(** The replacement patterns of [String.prototype.replace] are expanded in
    the message: the page does not show the message as it is. *)
Lemma error_message_dollar_patterns :
Dev.error_template example_error_page "500" "Unexpected $& in [id=$$]"
= "<h1>500</h1><p>Unexpected %sveltekit.error.message% in [id=$]</p>".
Proof. reflexivity. Qed.

(** C5 fails on the code: the pattern is run on the raw [req.url], query
    string included, not on the decoded path.  The decoded path of
    [/about?x=1] is [/about], which the first route matches, and that route
    declares the "edge" environment; the lookup finds no route and the
    request goes to 'ssr'. *)
Theorem route_lookup_runs_on_raw_url :
path_of "/about?x=1" = "/about"
∧ Dev.environment_name (Dev.find_route example_manifest (path_of "/about?x=1")) = "edge"
∧ Dev.find_route example_manifest "/about?x=1" = None
∧ fst (Dev.handle example_world example_config started (get "/about?x=1"))
  = [("ssr", "http://localhost:5173/about?x=1")]
∧ fst (Dev.handle example_world example_config started (get "/about"))
  = [("edge", "http://localhost:5173/about")].
Proof. repeat split. Qed.



(** A page on which the two passes interfere: the status placeholder that
    begins at the closing percent sign of the message placeholder is
    replaced first, and the message placeholder is gone. *)
Lemma overlapping_placeholders :
Dev.error_template "%sveltekit.error.message%sveltekit.status%" "500" "oops"
= "%sveltekit.error.message500".
Proof. reflexivity. Qed.

(* ================================================================== *)
(** * Part III — further properties of the code                        *)
(* ================================================================== *)

(** ** remove_static_middlewares *)

(** The handler is not one of Vite's two static middlewares. *)
Definition not_static (entry : Dev.Middleware) : Prop :=
Js.includes Dev.static_middlewares (Dev.handle_name entry) = false.

Lemma remove_static_loop_S (i : nat) (stack : list Dev.Middleware) :
Dev.remove_static_loop (S i) stack =
  match stack !! S i with
  | None => Js.Throw (Dev.type_error "handle")
  | Some entry =>
      Dev.remove_static_loop i
        (if Js.includes Dev.static_middlewares (Dev.handle_name entry)
         then delete (S i) stack
         else stack)
  end.
Proof. reflexivity. Qed.

Lemma remove_static_loop_spec (i : nat) (stack : list Dev.Middleware) :
i < length stack →
Dev.remove_static_loop i stack
= Js.Return (take 1 stack ++ filter not_static (drop 1 (take (S i) stack))
             ++ drop (S i) stack).
Proof.
revert stack. induction i as [|i IH]; intros stack Hlt.
- simpl Dev.remove_static_loop. f_equal.
  destruct stack as [|m rest]; [simpl in Hlt; lia|]. reflexivity.
- rewrite remove_static_loop_S.
  destruct (lookup_lt_is_Some_2 stack (S i) Hlt) as [entry Hentry]. rewrite Hentry.
  assert (Htake : take (S (S i)) stack = take (S i) stack ++ [entry])
    by (by apply take_S_r).
  assert (Hdrop : drop (S i) stack = entry :: drop (S (S i)) stack)
    by (by apply drop_S).
  assert (Hlen : length (take (S i) stack) = S i) by (rewrite length_take; lia).
  assert (Hsplit : drop 1 (take (S i) stack ++ [entry])
                   = drop 1 (take (S i) stack) ++ [entry]).
  { rewrite drop_app_le; [done|]. lia. }
  rewrite Htake, Hsplit, filter_app.
  destruct (Js.includes Dev.static_middlewares (Dev.handle_name entry)) eqn:Hstatic;
    cbv iota.
  + assert (Hd : i < length (delete (S i) stack)).
    { rewrite length_delete by eauto. lia. }
    rewrite (IH _ Hd). f_equal.
    rewrite delete_take_drop.
    rewrite (take_app_le _ _ 1) by lia.
    rewrite (take_app_length' _ _ (S i)) by done.
    rewrite (drop_app_length' _ _ (S i)) by done.
    rewrite take_take. replace (1 `min` S i) with 1 by lia.
    rewrite filter_cons_False by (unfold not_static; congruence).
    rewrite filter_nil, app_nil_r. reflexivity.
  + rewrite IH by lia. f_equal. rewrite Hdrop.
    rewrite filter_cons_True by exact Hstatic. rewrite filter_nil.
    by rewrite <- !app_assoc.
Qed.

Lemma remove_static_result (stack : list Dev.Middleware) :
Dev.remove_static_middlewares stack
= Js.Return (take 1 stack ++ filter not_static (drop 1 stack)).
Proof.
unfold Dev.remove_static_middlewares. destruct stack as [|m rest]; [reflexivity|].
rewrite remove_static_loop_spec by (simpl; lia).
rewrite (take_ge (m :: rest) (S (length (m :: rest) - 1))),
  (drop_ge (m :: rest) (S (length (m :: rest) - 1))) by (simpl; lia).
by rewrite app_nil_r.
Qed.

Lemma filter_not_static_idemp (l : list Dev.Middleware) :
filter not_static (filter not_static l) = filter not_static l.
Proof.
induction l as [|x l IH]; [reflexivity|].
destruct (decide (not_static x)) as [Hx|Hx].
- rewrite (filter_cons_True _ _ _ Hx), (filter_cons_True _ _ _ Hx). by rewrite IH.
- by rewrite (filter_cons_False _ _ _ Hx).
Qed.

(** X1. [remove_static_middlewares] never throws; it leaves the first
    entry of the stack where it is, whatever its handler, removes from the
    rest every entry whose handler is [viteServeStaticMiddleware] or
    [viteServePublicMiddleware], and keeps the other entries in their
    order.  Running it again changes nothing. *)
Theorem remove_static_keeps_first (stack : list Dev.Middleware) :
let cleaned := take 1 stack ++ filter not_static (drop 1 stack) in
Dev.remove_static_middlewares stack = Js.Return cleaned
∧ Dev.remove_static_middlewares cleaned = Js.Return cleaned.
Proof.
intros cleaned. split; [apply remove_static_result|].
rewrite remove_static_result. f_equal. subst cleaned.
destruct stack as [|m rest]; [reflexivity|].
cbn [firstn skipn app]. rewrite !take_0, !drop_0. cbn [app]. by rewrite filter_not_static_idemp.
Qed.

(** ** processSourceMap: the lines of the mappings *)

Lemma split_padded (n : nat) (s : string) :
Js.split ";" (Js.repeat ";" n +:+ s) = replicate n EmptyString ++ Js.split ";" s.
Proof.
induction n as [|n IH]; [reflexivity|].
change (Js.repeat ";" (S n)) with (";" +:+ Js.repeat ";" n).
rewrite str_app_assoc, str_app_cons, str_app_nil_l.
change (Js.split ";" (String ";" (Js.repeat ";" n +:+ s)))
  with (EmptyString :: Js.split ";" (Js.repeat ";" n +:+ s)).
by rewrite IH.
Qed.

(** X2. The groups of a mappings string are separated by semicolons, one
    group for each generated line.  [processSourceMap] puts [padding]
    empty groups in front of the groups of the original map, so that the
    group of line [k] becomes the group of line [padding + k]. *)
Theorem processSourceMap_shifts_lines {R : Type} (padding : nat) (map : Env.SourceMap R) :
let padded := Env.processSourceMap (Z.of_nat padding) map in
Js.split ";" (Env.mappings padded)
= replicate padding EmptyString ++ Js.split ";" (Env.mappings map)
∧ ∀ k, Js.split ";" (Env.mappings padded) !! (padding + k)
       = Js.split ";" (Env.mappings map) !! k.
Proof.
intros padded.
assert (H : Js.split ";" (Env.mappings padded)
            = replicate padding EmptyString ++ Js.split ";" (Env.mappings map)).
{ subst padded. unfold Env.processSourceMap. simpl. rewrite Nat2Z.id. apply split_padded. }
split; [exact H|]. intros k. rewrite H.
rewrite lookup_app_r by (rewrite length_replicate; lia).
f_equal. rewrite length_replicate. lia.
Qed.

Lemma newlines_take (k : nat) (s : string) : newlines (Js.take k s) ≤ newlines s.
Proof.
revert s. induction k as [|k IH]; intros [|c s]; simpl; try lia.
specialize (IH s). lia.
Qed.

Lemma slice_from_start (s : string) (e : Z) : ∃ k, Js.slice s 0 e = Js.take k s.
Proof.
unfold Js.slice. replace (0 <? 0)%Z with false by reflexivity.
rewrite (Z.min_l 0) by lia. simpl Z.to_nat. simpl Js.drop. eauto.
Qed.

(** X3. Whatever text the engine prints for the wrapper, also one in which
    the body does not occur, the padding count is not negative (so that
    [';'.repeat] is never called with a negative count) and is at most the
    number of line breaks of that text. *)
Theorem padding_count_bounds (render : list string → string → string) :
(0 ≤ Env.asyncFunctionDeclarationPaddingLineCount render
 ≤ Z.of_nat (newlines (render ["a"; "b"] Env.wrapper_body)))%Z.
Proof.
unfold Env.asyncFunctionDeclarationPaddingLineCount.
destruct (slice_from_start (render ["a"; "b"] Env.wrapper_body)
            (Js.indexOf (render ["a"; "b"] Env.wrapper_body) Env.wrapper_body)) as [k ->].
rewrite split_length.
pose proof (newlines_take k (render ["a"; "b"] Env.wrapper_body)). lia.
Qed.

(** ** The patched fetch, installed twice *)

(** X4. When [dev] runs a second time in the same process it wraps the
    fetch that it had already wrapped.  The doubly wrapped fetch completes
    as the singly wrapped one, and the calls that reach the original fetch
    are the same. *)
Theorem patched_fetch_twice {O I R : Type} (K : Dev.Constants)
  (fetch : Dev.fetch_info O → I → Js.completion R)
  (info : Dev.fetch_info O) (init : I) :
let once := Dev.patched_fetch K fetch in
let twice := Dev.patched_fetch K (λ i n, snd (once i n)) in
snd (twice info init) = snd (once info init)
∧ concat ((λ call, fst (once call.1 call.2)) <$> fst (twice info init))
  = fst (once info init).
Proof.
intros once twice. subst once twice. unfold Dev.patched_fetch.
destruct info as [s|o]; [destruct (Dev.SCHEME K s) eqn:Hs|]; simpl;
  rewrite ?Hs; simpl; by split.
Qed.

(** ** update_manifest over a series of rebuilds *)

(** The number of log entries whose effect satisfies [p]. *)
Definition count_effects (p : Dev.effect → bool) (l : list (nat * Dev.effect)) : nat :=
length (List.filter (λ entry, p entry.2) l).

Definition is_full_reload (e : Dev.effect) : bool :=
match e with Dev.WsSend Dev.FullReload => true | _ => false end.

Definition is_error_overlay (e : Dev.effect) : bool :=
match e with Dev.WsSend (Dev.ErrorOverlay _ _) => true | _ => false end.

Definition is_sync_update (e : Dev.effect) : bool :=
match e with Dev.SyncUpdate _ _ => true | _ => false end.

Definition is_restart (e : Dev.effect) : bool :=
match e with Dev.ViteRestart => true | _ => false end.

(** Rebuilds one after the other, [outcomes] being the completions of the
    calls to [sync.create]. *)
Definition rebuilds (K : Dev.Constants) (outcomes : list (Js.completion Dev.ManifestData))
  (st : Dev.State) : Dev.State :=
foldl (λ s c, Dev.update_manifest K c s) st outcomes.

(** The successes that come directly after a failure. *)
Fixpoint recoveries (failing : bool) (outcomes : list (Js.completion Dev.ManifestData)) : nat :=
match outcomes with
| [] => 0
| Js.Return _ :: rest => (if failing then 1 else 0) + recoveries false rest
| Js.Throw _ :: rest => recoveries true rest
end.

Fixpoint failures (outcomes : list (Js.completion Dev.ManifestData)) : nat :=
match outcomes with
| [] => 0
| Js.Return _ :: rest => failures rest
| Js.Throw _ :: rest => S (failures rest)
end.

Definition failing (st : Dev.State) : bool :=
match Dev.manifest_error st with Some _ => true | None => false end.

Lemma count_effects_app (p : Dev.effect → bool) (l k : list (nat * Dev.effect)) :
count_effects p (l ++ k) = count_effects p l + count_effects p k.
Proof. unfold count_effects. by rewrite List.filter_app, length_app. Qed.

Lemma update_manifest_notifies (K : Dev.Constants) (c : Js.completion Dev.ManifestData)
  (st : Dev.State) :
let st' := Dev.update_manifest K c st in
count_effects is_full_reload (Dev.log st')
= count_effects is_full_reload (Dev.log st) + recoveries (failing st) [c]
∧ count_effects is_error_overlay (Dev.log st')
  = count_effects is_error_overlay (Dev.log st) + failures [c]
∧ failing st' = match c with Js.Return _ => false | Js.Throw _ => true end.
Proof.
destruct st as [d [e|] t r envs n ts nid l], c as [md|err]; simpl;
  unfold failing; simpl; rewrite ?count_effects_app; simpl;
  repeat split; try reflexivity; unfold count_effects; simpl; lia.
Qed.

(** X5. Over any series of rebuilds, [update_manifest] sends one
    full-reload notification for each rebuild that succeeds directly after
    a failed one (and none for the other successes), and one error
    notification for each failed rebuild, also when the rebuild before it
    had failed. *)
Theorem rebuild_notifications (K : Dev.Constants)
  (outcomes : list (Js.completion Dev.ManifestData)) (st : Dev.State) :
count_effects is_full_reload (Dev.log (rebuilds K outcomes st))
= count_effects is_full_reload (Dev.log st) + recoveries (failing st) outcomes
∧ count_effects is_error_overlay (Dev.log (rebuilds K outcomes st))
  = count_effects is_error_overlay (Dev.log st) + failures outcomes.
Proof.
revert st. induction outcomes as [|c outcomes IH]; intros st; [simpl; lia|].
change (rebuilds K (c :: outcomes) st)
  with (rebuilds K outcomes (Dev.update_manifest K c st)).
destruct (IH (Dev.update_manifest K c st)) as [Hr Hf].
destruct (update_manifest_notifies K c st) as (Hr1 & Hf1 & Hfail).
rewrite Hr, Hf, Hr1, Hf1, Hfail. destruct c; simpl; lia.
Qed.

(** ** A manifest is there whenever no error is recorded *)

Definition manifest_or_error (st : Dev.State) : Prop :=
Dev.manifest_error st = None → is_Some (Dev.manifest_data st).

Lemma update_manifest_establishes (K : Dev.Constants) (c : Js.completion Dev.ManifestData)
  (st : Dev.State) : manifest_or_error (Dev.update_manifest K c st).
Proof.
destruct st as [d [e|] t r envs n ts nid l], c as [md|err]; unfold manifest_or_error;
  simpl; intros H; by eauto.
Qed.

Lemma emit_keeps_manifest (cfg : Dev.Config) (k : Dev.watch_kind) (file : string)
  (st : Dev.State) :
Dev.manifest_data (Dev.emit cfg k file st) = Dev.manifest_data st
∧ Dev.manifest_error (Dev.emit cfg k file st) = Dev.manifest_error st.
Proof.
assert (Hall : ∀ s, Dev.manifest_data (Dev.on_all cfg file s) = Dev.manifest_data s
                    ∧ Dev.manifest_error (Dev.on_all cfg file s) = Dev.manifest_error s).
{ intros s. unfold Dev.on_all. by case_match. }
assert (Hadd : ∀ s, Dev.manifest_data (Dev.on_add_unlink cfg file s) = Dev.manifest_data s
                    ∧ Dev.manifest_error (Dev.on_add_unlink cfg file s) = Dev.manifest_error s).
{ intros s. unfold Dev.on_add_unlink, Dev.debounce. case_match; [|done].
  by destruct (Dev.timeout s). }
assert (Hchg : ∀ s,
  Dev.manifest_data (Dev.on_change_config file
     (Dev.on_change_template cfg file (Dev.on_change_tracked cfg file s)))
  = Dev.manifest_data s
  ∧ Dev.manifest_error (Dev.on_change_config file
     (Dev.on_change_template cfg file (Dev.on_change_tracked cfg file s)))
    = Dev.manifest_error s).
{ intros s. unfold Dev.on_change_config, Dev.on_change_template, Dev.on_change_tracked.
  by repeat case_match. }
unfold Dev.emit. destruct k.
- destruct (Hall (Dev.on_add_unlink cfg file st)) as [-> ->]. apply Hadd.
- destruct (Hall (Dev.on_add_unlink cfg file st)) as [-> ->]. apply Hadd.
- destruct (Hall (Dev.on_change_config file
     (Dev.on_change_template cfg file (Dev.on_change_tracked cfg file st)))) as [-> ->].
  apply Hchg.
- apply Hall.
- apply Hall.
Qed.

Section ManifestPresent.
Context {Request : Type}.
Variable W : Dev.World Request.
Variable K : Dev.Constants.
Variable cfg : Dev.Config.

Lemma fire_manifest_or_error (st : Dev.State) (tm : Dev.timer) :
manifest_or_error st → manifest_or_error (Dev.fire W K st tm).
Proof.
intros H. unfold Dev.fire. case_match; [|exact H].
destruct (Dev.to_run tm). apply update_manifest_establishes.
Qed.

Lemma advance_manifest_or_error (t : nat) (st : Dev.State) :
manifest_or_error st → manifest_or_error (Dev.advance W K t st).
Proof.
intros H. unfold Dev.advance.
generalize (Dev.sort_by_deadline (filter (λ tm, Dev.deadline tm ≤ t) (Dev.timers st))).
intros due. revert st H. induction due as [|tm due IH]; intros st H; [exact H|].
simpl foldl. apply IH. by apply fire_manifest_or_error.
Qed.

Lemma run_events_manifest_or_error (events : list Dev.watch_event) (st : Dev.State) :
manifest_or_error st → manifest_or_error (Dev.run_events W K cfg events st).
Proof.
revert st. induction events as [|ev events IH]; intros st H; [exact H|].
simpl. apply IH. unfold manifest_or_error.
destruct (emit_keeps_manifest cfg (Dev.kind ev) (Dev.file ev)
            (Dev.advance W K (Dev.at_time ev) st)) as [-> ->].
by apply advance_manifest_or_error.
Qed.

(** X7. After the first [update_manifest()] of [dev], whatever its outcome
    and whatever watcher events and timer expirations follow, a state with
    no manifest error has a manifest: the route lookup of the router never
    reads [routes] of an undefined [manifest_data]. *)
Theorem manifest_present_without_error
  (first : Js.completion Dev.ManifestData) (st0 : Dev.State)
  (events : list Dev.watch_event) (T : nat) :
let st := Dev.advance W K T
            (Dev.run_events W K cfg events (Dev.update_manifest K first st0)) in
Dev.manifest_error st = None → is_Some (Dev.manifest_data st).
Proof.
apply advance_manifest_or_error, run_events_manifest_or_error,
  update_manifest_establishes.
Qed.

End ManifestPresent.

Lemma manifest_present_witness :
let st := Dev.advance example_world kit_constants 1000
            (Dev.run_events example_world kit_constants example_config
               (burst_first :: burst_rest) started) in
Dev.manifest_error st = None ∧ is_Some (Dev.manifest_data st).
Proof.
split; [reflexivity|].
exact (manifest_present_without_error example_world kit_constants example_config
         (Dev.sync_create example_world 0)
         (Dev.mkState None None None false example_graphs 0 [] 0 [])
         (burst_first :: burst_rest) 1000 eq_refl).
Defined.

(** ** The timer queue over arbitrary runs *)

(** Either no timer is pending and [timeout] is null, or [timeout] holds
    the only timer of the queue. *)
Definition single_timer (st : Dev.State) : Prop :=
(Dev.timeout st = None ∧ Dev.timers st = [])
∨ ∃ id d, Dev.timeout st = Some id
          ∧ Dev.timers st = [Dev.mkTimer id d Dev.UpdateManifest].

Lemma update_manifest_keeps_host (K : Dev.Constants) (c : Js.completion Dev.ManifestData)
  (st : Dev.State) :
let st' := Dev.update_manifest K c st in
Dev.timeout st' = Dev.timeout st ∧ Dev.timers st' = Dev.timers st
∧ Dev.now st' = Dev.now st ∧ Dev.restarting st' = Dev.restarting st.
Proof. by destruct st as [d [e|] t r envs n ts nid l], c as [md|err]. Qed.

Lemma debounce_log (tk : Dev.task) (st : Dev.State) :
Dev.log (Dev.debounce tk st) = Dev.log st.
Proof. unfold Dev.debounce. by destruct (Dev.timeout st). Qed.

Lemma emit_after_debounce (cfg : Dev.Config) (k : Dev.watch_kind) (file : string)
  (st : Dev.State) :
(k = Dev.Add ∨ k = Dev.Unlink) → Dev.watched cfg file = true →
quiet (Dev.debounce Dev.UpdateManifest st) (Dev.emit cfg k file st).
Proof.
intros Hk Hw. unfold Dev.emit, Dev.on_add_unlink. rewrite Hw.
destruct Hk as [-> | ->]; apply on_all_quiet.
Qed.

Lemma on_change_tracked_timers (cfg : Dev.Config) (file : string) (st : Dev.State) :
Dev.timeout (Dev.on_change_tracked cfg file st) = Dev.timeout st
∧ Dev.timers (Dev.on_change_tracked cfg file st) = Dev.timers st.
Proof. unfold Dev.on_change_tracked. by repeat case_match. Qed.

Lemma emit_single_timer (cfg : Dev.Config) (k : Dev.watch_kind) (file : string)
  (st : Dev.State) :
single_timer st → single_timer (Dev.emit cfg k file st).
Proof.
intros Hst.
assert (Hkeep : ∀ s s', quiet s s' → single_timer s → single_timer s').
{ intros s s' [(_ & _ & Hto & Htm & _) _] Hs. unfold single_timer. by rewrite Hto, Htm. }
assert (Harmed : single_timer (Dev.debounce Dev.UpdateManifest st)).
{ right. assert (Hshape : Dev.timeout st = None ∧ Dev.timers st = []
    ∨ ∃ id d tk, Dev.timeout st = Some id ∧ Dev.timers st = [Dev.mkTimer id d tk]).
  { destruct Hst as [?|(id & d & ? & ?)]; [by left|right; eauto]. }
  destruct (debounce_arms st Hshape) as (Hto & Htm & _). eauto. }
assert (Hadd : single_timer (Dev.on_add_unlink cfg file st)).
{ unfold Dev.on_add_unlink. by case_match. }
destruct k.
- apply (Hkeep (Dev.on_add_unlink cfg file st)); [apply on_all_quiet|exact Hadd].
- apply (Hkeep (Dev.on_add_unlink cfg file st)); [apply on_all_quiet|exact Hadd].
- apply (Hkeep _ _ (emit_change_after_tracker cfg file st)).
  destruct (on_change_tracked_timers cfg file st) as [Hto Htm].
  unfold single_timer. by rewrite Hto, Htm.
- apply (Hkeep st); [apply on_all_quiet|exact Hst].
- apply (Hkeep st); [apply on_all_quiet|exact Hst].
Qed.

Section TimerQueue.
Context {Request : Type}.
Variable W : Dev.World Request.
Variable K : Dev.Constants.
Variable cfg : Dev.Config.

(** The only timer of the queue expires: its callback clears [timeout]
    and runs [update_manifest] at the deadline. *)
Lemma advance_expires (T : nat) (id d : nat) (st : Dev.State) :
Dev.timers st = [Dev.mkTimer id d Dev.UpdateManifest] → d ≤ T →
let st' := Dev.advance W K T st in
Dev.timers st' = [] ∧ Dev.timeout st' = None
∧ Dev.now st' = Nat.max (Nat.max (Dev.now st) d) T
∧ Dev.restarting st' = Dev.restarting st
∧ Dev.log st' = Dev.log (Dev.update_manifest K (Dev.sync_create W (Nat.max (Dev.now st) d))
                           (Dev.set_now (Nat.max (Dev.now st) d) st)).
Proof.
intros Htm HT. unfold Dev.advance. rewrite Htm.
rewrite filter_cons_True by (simpl; lia). rewrite filter_nil. simpl foldl.
unfold Dev.fire. rewrite Htm. simpl fmap.
rewrite bool_decide_eq_true_2 by (simpl; apply list_elem_of_here).
rewrite filter_cons_False by (simpl; tauto). rewrite filter_nil. simpl Dev.to_run.
cbv iota.
destruct st as [md e to r envs n ts nid l]. simpl in *.
by destruct (Dev.sync_create W (n `max` d)) as [m|err], e.
Qed.

Lemma advance_single_timer (T : nat) (st : Dev.State) :
single_timer st → single_timer (Dev.advance W K T st).
Proof.
intros [[Hto Htm]|(id & d & Hto & Htm)].
- rewrite advance_no_timer by done. by left.
- destruct (decide (d ≤ T)) as [Hdue|Hlater].
  + destruct (advance_expires T id d st Htm Hdue) as (Htm' & Hto' & _). by left.
  + rewrite (advance_before_deadline W K T _ st Htm) by (simpl; lia).
    right. by exists id, d.
Qed.

(** X8. Over any run of watcher events and timer expirations, of whatever
    kinds and at whatever times, the queue never holds more than one timer
    of [dev], and it holds one exactly when [timeout] is not null: a
    rebuild is never scheduled twice. *)
Theorem at_most_one_timer (events : list Dev.watch_event) (T : nat) (st : Dev.State) :
single_timer st → single_timer (Dev.advance W K T (Dev.run_events W K cfg events st)).
Proof.
intros Hst. apply advance_single_timer.
revert st Hst. induction events as [|ev events IH]; intros st Hst; [exact Hst|].
simpl. apply IH. by apply emit_single_timer, advance_single_timer.
Qed.

End TimerQueue.

Lemma at_most_one_timer_witness :
single_timer started
∧ single_timer (Dev.advance example_world kit_constants 200
                  (Dev.run_events example_world kit_constants example_config
                     (burst_first :: burst_rest) started)).
Proof.
assert (H : single_timer started) by (by left).
split; [exact H|].
exact (at_most_one_timer example_world kit_constants example_config
         (burst_first :: burst_rest) 200 started H).
Defined.

(** ** Once the restart flag is set *)

Lemma quiet_no_sync_update (st st' : Dev.State) :
quiet st st' →
count_effects is_sync_update (Dev.log st') = count_effects is_sync_update (Dev.log st).
Proof.
intros [_ (extra & -> & Hextra)]. rewrite count_effects_app.
assert (count_effects is_sync_update extra = 0) as ->; [|lia].
induction Hextra as [|[t e] extra He _ IH]; [reflexivity|].
unfold count_effects in *. simpl in *. destruct e; simpl in *; try exact IH. tauto.
Qed.

Lemma emit_restarting_no_update (cfg : Dev.Config) (k : Dev.watch_kind) (file : string)
  (st : Dev.State) :
Dev.restarting st = true →
count_effects is_sync_update (Dev.log (Dev.emit cfg k file st))
= count_effects is_sync_update (Dev.log st).
Proof.
intros Hr.
assert (Hadd : count_effects is_sync_update (Dev.log (Dev.on_add_unlink cfg file st))
               = count_effects is_sync_update (Dev.log st)).
{ unfold Dev.on_add_unlink. case_match; [|done]. by rewrite debounce_log. }
destruct k.
- unfold Dev.emit. by rewrite (quiet_no_sync_update _ _ (on_all_quiet cfg file _)).
- unfold Dev.emit. by rewrite (quiet_no_sync_update _ _ (on_all_quiet cfg file _)).
- rewrite restarting_gates_change_listeners by exact Hr.
  rewrite (quiet_no_sync_update _ _ (on_all_quiet cfg file _)).
  by rewrite (quiet_no_sync_update _ _ (on_change_config_quiet file _)).
- unfold Dev.emit. by rewrite (quiet_no_sync_update _ _ (on_all_quiet cfg file _)).
- unfold Dev.emit. by rewrite (quiet_no_sync_update _ _ (on_all_quiet cfg file _)).
Qed.

Section Restarting.
Context {Request : Type}.
Variable W : Dev.World Request.
Variable K : Dev.Constants.
Variable cfg : Dev.Config.

(** The flag is set and [n] incremental updates have been made. *)
Definition restarting_with (n : nat) (st : Dev.State) : Prop :=
Dev.restarting st = true ∧ count_effects is_sync_update (Dev.log st) = n.

Lemma update_manifest_restarting (n : nat) (c : Js.completion Dev.ManifestData)
  (st : Dev.State) :
restarting_with n st → restarting_with n (Dev.update_manifest K c st).
Proof.
intros [Hr Hn]. destruct st as [d [e|] t r envs m ts nid l], c as [md|err];
  simpl in *; split; try exact Hr;
  simpl; rewrite ?count_effects_app; rewrite Hn; unfold count_effects; simpl; lia.
Qed.

Lemma fire_restarting (n : nat) (st : Dev.State) (tm : Dev.timer) :
restarting_with n st → restarting_with n (Dev.fire W K st tm).
Proof.
intros H. unfold Dev.fire. case_match; [|exact H].
destruct (Dev.to_run tm). apply update_manifest_restarting. exact H.
Qed.

Lemma advance_restarting (n t : nat) (st : Dev.State) :
restarting_with n st → restarting_with n (Dev.advance W K t st).
Proof.
intros H. unfold Dev.advance.
generalize (Dev.sort_by_deadline (filter (λ tm, Dev.deadline tm ≤ t) (Dev.timers st))).
intros due. revert st H. induction due as [|tm due IH]; intros st H; [exact H|].
simpl foldl. apply IH. by apply fire_restarting.
Qed.

(** X10. Once the restart flag is set it stays set, and no incremental
    update ([sync.update]) is made any more, whatever watcher events and
    timer expirations follow. *)
Theorem restarting_stops_incremental_updates
  (events : list Dev.watch_event) (T : nat) (st : Dev.State) :
Dev.restarting st = true →
let st' := Dev.advance W K T (Dev.run_events W K cfg events st) in
Dev.restarting st' = true
∧ count_effects is_sync_update (Dev.log st') = count_effects is_sync_update (Dev.log st).
Proof.
intros Hr. apply advance_restarting.
assert (H : restarting_with (count_effects is_sync_update (Dev.log st)) st) by done.
revert H. generalize (count_effects is_sync_update (Dev.log st)). intros n.
revert st Hr. induction events as [|ev events IH]; intros st _ H; [exact H|].
simpl. destruct (advance_restarting n (Dev.at_time ev) st H) as [Hr' Hn'].
apply IH.
- by apply restarting_persists.
- split; [by apply restarting_persists|].
  by rewrite emit_restarting_no_update.
Qed.

End Restarting.

Lemma restarting_witness :
Dev.restarting restart_requested = true
∧ count_effects is_sync_update
    (Dev.log (Dev.advance example_world kit_constants 1000
                (Dev.run_events example_world kit_constants example_config
                   [Dev.mkEvent 20 Dev.Change page_file; route_added] restart_requested)))
  = 0.
Proof.
split; [reflexivity|].
exact (proj2 (restarting_stops_incremental_updates example_world kit_constants
                example_config [Dev.mkEvent 20 Dev.Change page_file; route_added]
                1000 restart_requested eq_refl)).
Defined.

(** ** The configuration listener *)

Lemma count_restart_perform (e : Dev.effect) (st : Dev.State) :
count_effects is_restart (Dev.log (Dev.perform e st))
= count_effects is_restart (Dev.log st) + (if is_restart e then 1 else 0).
Proof.
unfold Dev.perform. simpl. rewrite count_effects_app. unfold count_effects at 2. simpl.
by destruct (is_restart e).
Qed.

Lemma on_all_no_restart (cfg : Dev.Config) (file : string) (st : Dev.State) :
count_effects is_restart (Dev.log (Dev.on_all cfg file st))
= count_effects is_restart (Dev.log st).
Proof.
unfold Dev.on_all. case_match; [|done]. rewrite count_restart_perform. simpl. lia.
Qed.

Lemma change_listeners_no_restart (cfg : Dev.Config) (file : string) (st : Dev.State) :
count_effects is_restart
  (Dev.log (Dev.on_change_template cfg file (Dev.on_change_tracked cfg file st)))
= count_effects is_restart (Dev.log st).
Proof.
unfold Dev.on_change_template, Dev.on_change_tracked.
repeat case_match; rewrite ?count_restart_perform; simpl; lia.
Qed.

(** X11. The configuration listener looks at the last segment of the path
    only: a [change] event on a file named [svelte.config.js] in any
    directory sets the restart flag and calls [vite.restart()] once, also
    when the flag is set already. *)
Theorem config_named_file_restarts (cfg : Dev.Config) (dir : string) (st : Dev.State) :
let st' := Dev.emit cfg Dev.Change (child dir "svelte.config.js") st in
Dev.restarting st' = true
∧ count_effects is_restart (Dev.log st') = S (count_effects is_restart (Dev.log st)).
Proof.
assert (Hbase : Path.basename (child dir "svelte.config.js") = "svelte.config.js").
{ apply basename_child. split; [discriminate|reflexivity]. }
intros st'. subst st'. unfold Dev.emit.
set (s1 := Dev.on_change_template cfg _ (Dev.on_change_tracked cfg _ st)).
assert (H1 : count_effects is_restart (Dev.log s1) = count_effects is_restart (Dev.log st))
  by apply change_listeners_no_restart.
unfold Dev.on_change_config. rewrite Hbase. simpl String.eqb. cbv iota.
split.
- unfold Dev.on_all. by case_match.
- rewrite on_all_no_restart, count_restart_perform.
  match goal with
  | |- context [Dev.log (Dev.set_restarting true ?s)] =>
      change (Dev.log (Dev.set_restarting true s)) with (Dev.log s)
  end.
  rewrite count_restart_perform. simpl is_restart. cbv iota. lia.
Qed.

(** ** The early exits of the router *)

Section EarlyExits.
Context {Request : Type}.
Variable W : Dev.World Request.
Variable cfg : Dev.Config.

(** The file that the static branch looks for (line 275). *)
Definition static_candidate (decoded : string) : string :=
Dev.resolve_path W (Js.slice_from decoded (String.length (Dev.paths_base cfg) + 1)).

(** Line 277-279. *)
Definition allowed (file : string) : bool :=
negb (Dev.server_fs_strict cfg)
|| existsb (λ dir, Js.startsWith file dir) (Dev.server_fs_allow cfg).

Lemma handle_classify (st : Dev.State) (req : Dev.IncomingMessage) :
match Dev.decode_pathname W (Dev.request_base cfg (restored req)) (Dev.originalUrl req) with
| Js.Throw e => Dev.handle W cfg st req = ([], Dev.Status500 (Dev.fix_stack_trace W e))
| Js.Return decoded =>
    match Dev.is_file W (static_candidate decoded) with
    | Js.Throw e => Dev.handle W cfg st req = ([], Dev.Status500 (Dev.fix_stack_trace W e))
    | Js.Return is_file =>
        if is_file && allowed (static_candidate decoded)
        then Dev.handle W cfg st req = ([], Dev.ServeStatic (Dev.url req))
        else if negb (Js.startsWith decoded (Dev.paths_base cfg))
        then Dev.handle W cfg st req = ([], Dev.NotFound (Dev.paths_base cfg))
        else if String.eqb decoded (Dev.paths_base cfg +:+ "/service-worker.js")
        then Dev.handle W cfg st req =
               ([], match Dev.resolve_entry W (Dev.files_serviceWorker cfg) with
                    | Some resolved =>
                        Dev.WriteEnd 200 [("content-type", "application/javascript")]
                          ("import '" +:+ Dev.to_fs W resolved +:+ "';")
                    | None => Dev.WriteEnd 404 [] "not found"
                    end)
        else reaches_router W cfg req decoded
    end
end.
Proof.
unfold Dev.handle, static_candidate, allowed. fold (restored req). simpl Dev.url.
destruct (Dev.decode_pathname W _ _) as [decoded|e] eqn:Hdec; [|reflexivity].
destruct (Dev.is_file W _) as [b|e] eqn:Hfile; [|reflexivity].
destruct (b && _) eqn:Hserve; [reflexivity|].
destruct (negb (Js.startsWith decoded _)) eqn:Hbase; [reflexivity|].
destruct (String.eqb_spec decoded (Dev.paths_base cfg +:+ "/service-worker.js")) as [Hsw|Hsw].
- by destruct (Dev.resolve_entry W _).
- split; [exact Hdec|]. split; [|split; [by apply negb_false_iff|exact Hsw]].
  exists b. by split.
Qed.

(** X12. The router hands a request to Vite's static middleware without a
    fallback exactly when the decoded path names an existing file that is
    not a directory and that, if [server.fs.strict] is on, lies under one
    of the allowed directories; [req.url] is then what it was before the
    router restored the original URL, and nothing is dispatched. *)
Theorem static_file_branch (st : Dev.State) (req : Dev.IncomingMessage)
  (calls : list (string * Request)) (served : string) :
Dev.handle W cfg st req = (calls, Dev.ServeStatic served) ↔
calls = [] ∧ served = Dev.url req
∧ ∃ decoded,
    Dev.decode_pathname W (Dev.request_base cfg (restored req)) (Dev.originalUrl req)
    = Js.Return decoded
    ∧ Dev.is_file W (static_candidate decoded) = Js.Return true
    ∧ (Dev.server_fs_strict cfg = false
       ∨ ∃ dir, dir ∈ Dev.server_fs_allow cfg
                ∧ Js.startsWith (static_candidate decoded) dir = true).
Proof.
pose proof (handle_classify st req) as Hc.
assert (Hallowed : ∀ file, allowed file = true ↔
  (Dev.server_fs_strict cfg = false
   ∨ ∃ dir, dir ∈ Dev.server_fs_allow cfg ∧ Js.startsWith file dir = true)).
{ intros file. unfold allowed. rewrite orb_true_iff, negb_true_iff, existsb_exists.
  split; (intros [?|(dir & ? & ?)]; [by left|right; exists dir]);
    by rewrite ?list_elem_of_In in *. }
split.
- intros H.
  destruct (Dev.decode_pathname W _ _) as [decoded|e] eqn:Hdec;
    [|rewrite Hc in H; discriminate].
  destruct (Dev.is_file W _) as [b|e] eqn:Hfile; [|rewrite Hc in H; discriminate].
  destruct (b && _) eqn:Hserve.
  + rewrite Hc in H. injection H as <- <-. apply andb_true_iff in Hserve as [-> Hal].
    repeat split. exists decoded. split; [done|]. split; [done|]. by apply Hallowed.
  + destruct (negb _); [rewrite Hc in H; discriminate|].
    destruct (String.eqb _ _).
    * rewrite Hc in H. by destruct (Dev.resolve_entry W _).
    * rewrite (handle_at_router W cfg st req decoded Hc) in H.
      unfold route_request in H. repeat case_match; discriminate.
- intros (-> & -> & decoded & Hdec & Hfile & Hal).
  rewrite Hdec, Hfile in Hc. apply Hallowed in Hal. rewrite Hal in Hc. exact Hc.
Qed.

(** X13. A request that does not reach the router (its URL does not
    decode, or it is answered from a file, or it lies outside the base
    path, or it asks for the service worker) gets the same answer whatever
    the manifest, the manifest error and the rest of the state are, and
    nothing is dispatched for it. *)
Theorem early_exits_ignore_state (req : Dev.IncomingMessage) :
(∀ decoded, ¬ reaches_router W cfg req decoded) →
∀ st st', Dev.handle W cfg st req = Dev.handle W cfg st' req
          ∧ fst (Dev.handle W cfg st req) = [].
Proof.
intros Hnot st st'.
pose proof (handle_classify st req) as Hc. pose proof (handle_classify st' req) as Hc'.
destruct (Dev.decode_pathname W _ _) as [decoded|e]; [|by rewrite Hc, Hc'].
destruct (Dev.is_file W _) as [b|e]; [|by rewrite Hc, Hc'].
destruct (b && _); [by rewrite Hc, Hc'|].
destruct (negb _); [by rewrite Hc, Hc'|].
destruct (String.eqb _ _); [by rewrite Hc, Hc'|].
by destruct (Hnot decoded).
Qed.

(** X14. The router calls [dispatchFetch] at most once for a request, and
    only while no manifest error is recorded: the call goes to the
    environment named by the route lookup on the original URL, which
    [vite.environments] must hold, with the request that [getRequest]
    has returned. *)
Theorem dispatch_at_most_once (st : Dev.State) (req : Dev.IncomingMessage) :
let calls := fst (Dev.handle W cfg st req) in
calls = []
∨ Dev.manifest_error st = None
  ∧ ∃ manifest request, Dev.manifest_data st = Some manifest
      ∧ Dev.getRequest W (Dev.request_base cfg (restored req)) (restored req)
        = Js.Return request
      ∧ let name := Dev.environment_name
                      (Dev.find_route manifest (Dev.originalUrl req)) in
        is_Some (Dev.environments st !! name)
        ∧ calls = [(name, request)].
Proof.
pose proof (handle_classify st req) as Hc. simpl.
destruct (Dev.decode_pathname W _ _) as [decoded|e]; [|left; by rewrite Hc].
destruct (Dev.is_file W _) as [b|e]; [|left; by rewrite Hc].
destruct (b && _); [left; by rewrite Hc|].
destruct (negb _); [left; by rewrite Hc|].
destruct (String.eqb _ _); [left; by rewrite Hc|].
rewrite (handle_at_router W cfg st req decoded Hc).
destruct (Dev.getRequest W _ _) as [request|e] eqn:Hreq; [|by left].
unfold route_request.
destruct (Dev.manifest_error st); [by left|].
destruct (Dev.manifest_data st) as [manifest|]; [|by left].
simpl. destruct (Dev.environments st !! _) as [graph|] eqn:Henv; [|by left].
right. split; [done|]. exists manifest, request. split; [done|]. split; [done|].
split; [by eexists|]. by destruct (Dev.dispatchFetch W _ _).
Qed.

End EarlyExits.

Lemma early_exit_witness :
(∀ decoded, ¬ reaches_router example_world example_config (get "/service-worker.js") decoded)
∧ Dev.handle example_world example_config started (get "/service-worker.js")
  = Dev.handle example_world example_config failed (get "/service-worker.js").
Proof.
assert (H : ∀ decoded,
  ¬ reaches_router example_world example_config (get "/service-worker.js") decoded).
{ intros decoded (Hdec & _ & _ & Hsw). injection Hdec as <-. by apply Hsw. }
split; [exact H|].
exact (proj1 (early_exits_ignore_state example_world example_config
                (get "/service-worker.js") H started failed)).
Defined.

Lemma static_file_witness :
Dev.handle example_world example_config started (get "/svelte.config.js")
  = ([], Dev.ServeStatic "/svelte.config.js")
∧ Dev.is_file example_world (static_candidate example_world example_config "/svelte.config.js")
  = Js.Return true.
Proof.
assert (H : Dev.handle example_world example_config started (get "/svelte.config.js")
            = ([], Dev.ServeStatic "/svelte.config.js")) by reflexivity.
split; [exact H|].
destruct (proj1 (static_file_branch example_world example_config started
                   (get "/svelte.config.js") [] "/svelte.config.js") H)
  as (_ & _ & decoded & Hdec & Hfile & _).
injection Hdec as <-. exact Hfile.
Defined.

(** ** The route lookup *)

Lemma find_none {A} (p : A → bool) (xs : list A) :
Js.find p xs = None ↔ Forall (λ y, p y = false) xs.
Proof.
induction xs as [|y xs IH]; simpl; [by split; [constructor|]|].
destruct (p y) eqn:Hy.
- split; [discriminate|]. intros H. inversion H; congruence.
- rewrite IH. split; [by constructor|]. intros H. by inversion H.
Qed.

(** X15. The route lookup returns the first route of the manifest, in its
    order, whose pattern accepts the text it is given, and no route
    exactly when no pattern accepts it; so when several routes match, the
    earliest of them decides the environment that is dispatched to. *)
Theorem route_lookup_first_match (manifest : Dev.ManifestData) (url : string) :
(∀ route, Dev.find_route manifest url = Some route ↔
   ∃ before after, Dev.routes manifest = before ++ route :: after
     ∧ Dev.pattern route url = true
     ∧ Forall (λ r, Dev.pattern r url = false) before)
∧ (Dev.find_route manifest url = None
   ↔ Forall (λ r, Dev.pattern r url = false) (Dev.routes manifest))
∧ (∀ before route after, Dev.routes manifest = before ++ route :: after →
     Dev.pattern route url = true →
     Forall (λ r, Dev.pattern r url = false) before →
     Dev.environment_name (Dev.find_route manifest url)
     = Js.nullish (Dev.environment route) "ssr").
Proof.
split; [|split].
- intros route. apply (find_first_match (λ r, Dev.pattern r url)).
- apply (find_none (λ r, Dev.pattern r url)).
- intros before route after Hsplit Hroute Hbefore.
  assert (Dev.find_route manifest url = Some route) as ->; [|reflexivity].
  apply (find_first_match (λ r, Dev.pattern r url)). by exists before, after.
Qed.

Definition catch_all (s : string) : bool := Js.startsWith s "/".

Definition shadowing_manifest : Dev.ManifestData :=
Dev.mkManifest [Dev.mkRoute "/about" about_pattern (Some "edge");
                Dev.mkRoute "/[...rest]" catch_all (Some "worker")].

Lemma route_lookup_witness :
about_pattern "/about" = true ∧ catch_all "/about" = true
∧ Dev.environment_name (Dev.find_route shadowing_manifest "/about") = "edge".
Proof.
split; [reflexivity|]. split; [reflexivity|].
exact (proj2 (proj2 (route_lookup_first_match shadowing_manifest "/about"))
         [] (Dev.mkRoute "/about" about_pattern (Some "edge"))
         [Dev.mkRoute "/[...rest]" catch_all (Some "worker")]
         eq_refl eq_refl (Forall_nil_2 _)).
Defined.

(** ** has_correct_case on an ordinary file system *)

(** No directory listing holds the empty name or the name ".". *)
Definition plain_listings (readdir : string → Js.completion (list string)) : Prop :=
∀ dir names, readdir dir = Js.Return names →
  (EmptyString ∉ names) ∧ ("." ∉ names).

Section NoOverflow.
Variable readdir : string → Js.completion (list string).
Variable assets : string.
Hypothesis Hplain : plain_listings readdir.

(** The recursion has ended: with a boolean, or with an error thrown by
    [readdirSync]. *)
Definition ended (o : option (Js.completion bool)) : Prop :=
(∃ b, o = Some (Js.Return b))
∨ ∃ dir e, readdir dir = Js.Throw e ∧ o = Some (Js.Throw e).

Lemma ended_at_root (p : string) (k : nat) :
p = "/" ∨ p = "." → ended (Dev.has_correct_case_upto readdir (S k) p assets).
Proof.
intros Hp. simpl. destruct (String.eqb p assets); [left; eauto|].
assert (Hdir : Path.dirname p = p) by (by destruct Hp as [-> | ->]).
assert (Hname : Path.basename p = EmptyString ∨ Path.basename p = ".")
  by (destruct Hp as [-> | ->]; [by left|by right]).
rewrite Hdir. destruct (readdir p) as [names|e] eqn:Hread; [|right; eauto].
destruct (Js.includes names (Path.basename p)) eqn:Hinc; [|left; eauto].
apply includes_elem_of in Hinc. destruct (Hplain p names Hread) as [H1 H2].
destruct Hname as [Hn|Hn]; rewrite Hn in Hinc; contradiction.
Qed.

Lemma dirname_small_root (p : string) :
String.length p ≤ 1 → Path.dirname p = "/" ∨ Path.dirname p = ".".
Proof.
destruct p as [|c [|d p]]; simpl; intros H; [by right| |lia].
unfold Path.dirname. simpl. destruct (Path.is_slash c); [by left|by right].
Qed.

Lemma has_correct_case_upto_ends (n : nat) (file : string) :
String.length file ≤ n →
ended (Dev.has_correct_case_upto readdir (n + 3) file assets).
Proof.
revert file. induction n as [|n IH]; intros file Hlen.
- replace (0 + 3) with (S 2) by lia. simpl.
  destruct (String.eqb file assets); [left; eauto|].
  destruct (readdir (Path.dirname file)) as [names|e] eqn:Hread; [|right; eauto].
  destruct (Js.includes names (Path.basename file)); [|left; eauto].
  apply (ended_at_root _ 1). apply dirname_small_root. lia.
- replace (S n + 3) with (S (n + 3)) by lia.
  change (Dev.has_correct_case_upto readdir (S (n + 3)) file assets)
    with (if String.eqb file assets then Some (Js.Return true)
          else match readdir (Path.dirname file) with
               | Js.Throw e => Some (Js.Throw e)
               | Js.Return names =>
                   if Js.includes names (Path.basename file)
                   then Dev.has_correct_case_upto readdir (n + 3) (Path.dirname file) assets
                   else Some (Js.Return false)
               end).
  destruct (String.eqb file assets); [left; eauto|].
  destruct (readdir (Path.dirname file)) as [names|e] eqn:Hread; [|right; eauto].
  destruct (Js.includes names (Path.basename file)); [|left; eauto].
  destruct (decide (2 ≤ String.length file)) as [Hlong|Hshort].
  + apply IH. pose proof (dirname_shrinks file Hlong). lia.
  + replace (n + 3) with (S (n + 2)) by lia.
    apply ended_at_root, dirname_small_root. lia.
Qed.

(** X16. On a file system whose directory listings never hold the empty
    name or the name ".", [has_correct_case] always comes to an end, for
    every file and every assets root, also for a file that does not lie
    under the root: it returns a boolean or lets an error of
    [readdirSync] through, and never exhausts the stack. *)
Theorem has_correct_case_ends (file : string) :
(∃ b, Dev.has_correct_case readdir file assets = Js.Return b)
∨ ∃ dir e, readdir dir = Js.Throw e
           ∧ Dev.has_correct_case readdir file assets = Js.Throw e.
Proof.
unfold Dev.has_correct_case.
destruct (has_correct_case_upto_ends (String.length file) file (le_n _))
  as [[b ->]|(dir & e & Hread & ->)]; [left; eauto|right; eauto].
Qed.

End NoOverflow.

Lemma example_plain_listings : plain_listings example_readdir.
Proof.
intros dir names. unfold example_readdir.
repeat case_match; intros [= <-]; split; intros Hin;
  repeat (apply elem_of_cons in Hin as [Hin|Hin]; [discriminate|]);
  by apply elem_of_nil in Hin.
Qed.

Lemma has_correct_case_ends_witness :
plain_listings example_readdir
∧ Dev.has_correct_case example_readdir "/proj/svelte.config.js" "/proj/static"
  = Js.Return false.
Proof.
split; [exact example_plain_listings|].
destruct (has_correct_case_ends example_readdir "/proj/static" example_plain_listings
            "/proj/svelte.config.js") as [[b Hb]|(dir & e & _ & He)].
- rewrite Hb. vm_compute in Hb. by injection Hb as <-.
- vm_compute in He. discriminate.
Defined.
